(** * OpenGL_3D_Scene: the BSP visibility and level-of-detail core

    A shallow embedding of [BSPTree.cpp] / [BSPTree.h] (insert, mergeSubtrees,
    remove, isPointInFrustum, getAllFrontItems, getCurrentFrontItems), of
    [Item::calculateDistance] / [Item::drawMeshBasedOnDistance] and of
    [SceneManagerBSP::renderScene].

    Conventions of the embedding.
    - A C++ [float] is read as a real number of [R]; [sqrt] and [tan] are the
      functions of the Standard Library's reals.  Rounding is not modelled.
    - An [Item*] is an address ([ItemPtr], a natural number, [nullptr] = 0).
      What the tree code reads through such a pointer is only
      [item->position]; the positions are given by a store
      [position : ItemPtr -> vec3] that none of the modelled functions
      writes.
    - A [BSPTree*] child field is an [option BSPTree]; [None] is [nullptr].
    - [delete] has no result in C++; the model records every [delete] the
      code issues in a log of [MemEvent]s, in program order.  The tree a
      function returns is the pointer structure after the call; whether a
      node it links has been deleted is read off the log.
    - [render()] and [move()] are events of a frame; what they write
      (both assign [item->position]) happens after the query of that frame
      and is not modelled. *)

From Stdlib Require Import Reals Lra Psatz List Bool Arith Permutation Lia.
From Stdlib Require Import Sorted.
Import ListNotations.

Set Warnings "-register-all".

Local Open Scope R_scope.

(** ** Comparisons of floats, as booleans *)

Definition Rltb (x y : R) : bool := if Rlt_dec x y then true else false.
Definition Rleb (x y : R) : bool := if Rle_dec x y then true else false.
Definition Rgtb (x y : R) : bool := Rltb y x.

(** ** The part of glm the code uses *)

Module Glm.

Record vec3 : Type := mkvec3 { x : R; y : R; z : R }.

Definition add (a b : vec3) : vec3 := mkvec3 (x a + x b) (y a + y b) (z a + z b).
Definition sub (a b : vec3) : vec3 := mkvec3 (x a - x b) (y a - y b) (z a - z b).
(** [v * s], a vector times a float *)
Definition scale (v : vec3) (s : R) : vec3 := mkvec3 (x v * s) (y v * s) (z v * s).

Definition dot (a b : vec3) : R := x a * x b + y a * y b + z a * z b.

Definition cross (a b : vec3) : vec3 :=
  mkvec3 (y a * z b - y b * z a)
         (z a * x b - z b * x a)
         (x a * y b - x b * y a).

Definition length (v : vec3) : R := sqrt (dot v v).

(** [glm::normalize v = v * inversesqrt(dot(v, v))] *)
Definition normalize (v : vec3) : vec3 := scale v (/ sqrt (dot v v)).

Definition radians (degrees : R) : R := degrees * (PI / 180).

End Glm.

Import Glm.

(** ** Camera (camera.h): the attributes the visibility code reads *)

Record Camera : Type := mkCamera {
  Position : vec3;
  Front : vec3;
  Up : vec3;
  Fov : R
}.

(** ** Items and tree nodes *)

Definition ItemPtr : Type := nat.
Definition nullptr : ItemPtr := 0%nat.

(** [class BSPTree]: [partitionItem], [front], [back].  The member [normal]
    is the constant below; the member [result] is scratch storage that
    [getCurrentFrontItems] clears before each use, and is the value the
    model's query returns. *)
Inductive BSPTree : Type :=
  mkBSPTree (partitionItem : ItemPtr) (front back : option BSPTree).

Definition partitionItem (t : BSPTree) : ItemPtr :=
  match t with mkBSPTree p _ _ => p end.
Definition front (t : BSPTree) : option BSPTree :=
  match t with mkBSPTree _ f _ => f end.
Definition back (t : BSPTree) : option BSPTree :=
  match t with mkBSPTree _ _ b => b end.

Definition normal : vec3 := mkvec3 0 0 1.

(** A [delete] expression: of an item, or of the tree node whose anchor is
    [anchor]. *)
Inductive MemEvent : Type :=
| DeleteItem (item : ItemPtr)
| DeleteNode (anchor : ItemPtr).

(** [BSPTree(Item* partitionItem)] *)
Definition newBSPTree (item : ItemPtr) : BSPTree := mkBSPTree item None None.

(** [BSPTree::isPointInFrustum] *)
Definition nearPlane : R := 1 / 10.
Definition farPlane : R := 100.
Definition aspectRatio : R := 16 / 9.

Definition frustumPlanes (camera : Camera) : list vec3 :=
  let right := normalize (cross (Front camera) (Up camera)) in
  let up := normalize (cross right (Front camera)) in
  let halfVSide := nearPlane * tan (radians (Fov camera) / 2) in
  let halfHSide := halfVSide * aspectRatio in
  let nearCenter := add (Position camera) (scale (Front camera) nearPlane) in
  let farCenter := add (Position camera) (scale (Front camera) farPlane) in
  [ add nearCenter (scale up halfVSide);
    sub nearCenter (scale up halfVSide);
    add nearCenter (scale right halfHSide);
    sub nearCenter (scale right halfHSide);
    nearCenter;
    farCenter ].

(** The [for] loop returns [false] at the first reference point with a
    negative dot product, and [true] after the sixth. *)
Definition isPointInFrustum (point : vec3) (camera : Camera) : bool :=
  forallb (fun plane =>
             negb (Rltb (dot (sub point (Position camera))
                             (sub plane (Position camera))) 0))
          (frustumPlanes camera).

Section Tree.

(** [item->position], for every item address *)
Variable position : ItemPtr -> vec3.

(** The classification both [insert] and [remove] start with. *)
Definition dotProduct (item anchor : ItemPtr) : R :=
  let relativePosition :=
    mkvec3 (x (position item) - x (position anchor))
           (y (position item) - y (position anchor))
           (z (position item) - z (position anchor)) in
  x relativePosition * x normal + y relativePosition * y normal
  + z relativePosition * z normal.

(** [BSPTree::insert] *)
Fixpoint insert (this : BSPTree) (item : ItemPtr) : BSPTree :=
  match this with
  | mkBSPTree pItem front back =>
      if Rltb (dotProduct item pItem) 0 then
        match back with
        | Some b => mkBSPTree pItem front (Some (insert b item))
        | None => mkBSPTree pItem front (Some (newBSPTree item))
        end
      else
        match front with
        | Some f => mkBSPTree pItem (Some (insert f item)) back
        | None => mkBSPTree pItem (Some (newBSPTree item)) back
        end
  end.

(** [BSPTree::mergeSubtrees].  [attachRightmost] is the [while] loop that
    walks the [front] chain, followed by [rightmost->front = back]: the
    write happens inside the front subtree, so the tree rooted at [front]
    is the merged tree afterwards. *)
Fixpoint attachRightmost (rightmost back : BSPTree) : BSPTree :=
  match rightmost with
  | mkBSPTree pItem front b0 =>
      match front with
      | Some f => mkBSPTree pItem (Some (attachRightmost f back)) b0
      | None => mkBSPTree pItem (Some back) b0
      end
  end.

Definition mergeSubtrees (front back : option BSPTree) : option BSPTree :=
  match front with
  | None => back
  | Some f =>
      match back with
      | None => Some f
      | Some b => Some (attachRightmost f b)
      end
  end.

(** [~BSPTree()], as the list of the [delete]s it issues.  [delete front]
    runs the destructor of the child and then frees the child node. *)
Fixpoint destructor (this : BSPTree) : list MemEvent :=
  match this with
  | mkBSPTree _ front back =>
      (match front with
       | Some f =>
           DeleteItem (partitionItem f) :: destructor f
             ++ [DeleteNode (partitionItem f)]
       | None => []
       end)
      ++
      (match back with
       | Some b =>
           DeleteItem (partitionItem b) :: destructor b
             ++ [DeleteNode (partitionItem b)]
       | None => []
       end)
  end.

(** The body of the two "found" branches of [remove], for the matched child
    [temp]:
      [slot = mergeSubtrees(temp->front, temp->back);]
      [delete temp->partitionItem; delete temp;]
    [temp->front] and [temp->back] are not reset before [delete temp], and
    the node [temp->front] points to is the one [mergeSubtrees] has just
    written through; [tempAtDelete] is [*temp] as the destructor finds it.

    [detach] gives the subtree written to the slot and the [delete]
    statements in the order the code comes to them.  For a leaf these are
    the two of [remove] itself.  When [temp] has a child, [~BSPTree] deletes
    the nodes and anchors of the subtree just written to the slot: the
    subtree returned is then the pointer structure only, and every node of
    it is dangling.  When [temp] has both children, the back child is
    reached twice, through the merged front chain and through [temp->back]:
    the second occurrence of its [delete]s in the log is a read of a freed
    node and a double [delete], where the behaviour of the C++ program is
    undefined, and neither the rest of the log nor the subtree describes the
    program from there on. *)
Definition tempAtDelete (temp : BSPTree) : BSPTree :=
  mkBSPTree (partitionItem temp)
            (match front temp with
             | Some _ => mergeSubtrees (front temp) (back temp)
             | None => None
             end)
            (back temp).

Definition detach (temp : BSPTree) : option BSPTree * list MemEvent :=
  (mergeSubtrees (front temp) (back temp),
   DeleteItem (partitionItem temp)
     :: destructor (tempAtDelete temp) ++ [DeleteNode (partitionItem temp)]).

(** [BSPTree::remove]: the pointer structure after the call and the
    [delete]s issued.  The pair follows the code to the end of the call when
    nothing matches and when the matched node is a leaf; for a matched node
    with children see [detach]. *)
Fixpoint remove (this : BSPTree) (item : ItemPtr) : BSPTree * list MemEvent :=
  match this with
  | mkBSPTree pItem front back =>
      if Rltb (dotProduct item pItem) 0 then
        match back with
        | Some b =>
            if Nat.eqb (partitionItem b) item then
              let (merged, log) := detach b in
              (mkBSPTree pItem front merged, log)
            else
              let (b', log) := remove b item in
              (mkBSPTree pItem front (Some b'), log)
        | None => (this, [])
        end
      else
        match front with
        | Some f =>
            if Nat.eqb (partitionItem f) item then
              let (merged, log) := detach f in
              (mkBSPTree pItem merged back, log)
            else
              let (f', log) := remove f item in
              (mkBSPTree pItem (Some f') back, log)
        | None => (this, [])
        end
  end.

(** [BSPTree::getAllFrontItems]; [result] is passed by reference in the
    source and returned here. *)
Fixpoint getAllFrontItems (this : BSPTree) (camera : Camera)
         (result : list ItemPtr) (checkFrustum : bool) : list ItemPtr :=
  match this with
  | mkBSPTree pItem front back =>
      if Nat.eqb pItem nullptr then result else
      let toItem := sub (position pItem) (Position camera) in
      let isInFront := Rgtb (dot toItem (Front camera)) 0 in
      let isInFrustum :=
        negb checkFrustum || isPointInFrustum (position pItem) camera in
      if isInFront && isInFrustum then
        let result :=
          match back with
          | Some b => getAllFrontItems b camera result checkFrustum
          | None => result
          end in
        let result := result ++ [pItem] in
        match front with
        | Some f => getAllFrontItems f camera result checkFrustum
        | None => result
        end
      else
        match front with
        | Some f => getAllFrontItems f camera result checkFrustum
        | None => result
        end
  end.

(** [BSPTree::getCurrentFrontItems] *)
Definition getCurrentFrontItems (this : BSPTree) (camera : Camera)
           (checkFrustum : bool) : list ItemPtr :=
  getAllFrontItems this camera [] checkFrustum.

End Tree.

(** ** Item: distance-based choice of the mesh *)

(** [MeshCreator::GLMesh] *)
Record GLMesh : Type := mkGLMesh {
  vao : nat;
  nVertices : nat;
  nIndices : nat
}.

Inductive GLCall : Type :=
| glBindVertexArray (array : nat)
| glDrawArrays (count : nat)
| glDrawElements (count : nat).

(** [Item::calculateDistance] *)
Definition calculateDistance (camera : Camera) (objectPosition : vec3) : R :=
  let diff := sub (Position camera) objectPosition in
  length diff.

(** The two draw blocks of [drawMeshBasedOnDistance], for a mesh. *)
Definition drawMesh (mesh : GLMesh) (useDrawArrays : bool) : list GLCall :=
  glBindVertexArray (vao mesh)
    :: (if useDrawArrays then [glDrawArrays (nVertices mesh)]
        else [glDrawElements (nIndices mesh)]).

(** [Item::drawMeshBasedOnDistance], as the GL calls it issues *)
Definition drawMeshBasedOnDistance (camera : Camera) (highMesh lowMesh : GLMesh)
           (translationVec : vec3) (useDrawArrays : bool) : list GLCall :=
  let distance := calculateDistance camera translationVec in
  if Rltb distance 8 then drawMesh highMesh useDrawArrays
  else if Rleb distance 19 then drawMesh lowMesh useDrawArrays
  else [].

(** ** SceneManagerBSP::renderScene *)

(** What one frame does to the scene objects: [item->render()],
    [movingObject->move(deltaTime)], and [new Walls(...)], whose result is
    the address of the object just constructed. *)
Inductive SceneEvent : Type :=
| Render (item : ItemPtr)
| Move (item : ItemPtr) (deltaTime : R)
| NewWalls (walls : ItemPtr).

(** [new] returns an address that no live object has; [live] lists the
    addresses of the objects allocated and not deleted so far. *)
Definition newAddress (live : list ItemPtr) : ItemPtr := S (list_max live).

Section Scene.

Variable position : ItemPtr -> vec3.
(** whether [dynamic_cast<FireFly*>(item)] is not null *)
Variable isFireFly : ItemPtr -> bool.

(** The body of the [for] loop over [visibleItems]. *)
Definition renderItem (deltaTime : R) (item : ItemPtr) : list SceneEvent :=
  Render item :: (if isFireFly item then [Move item deltaTime] else []).

(** [renderScene]: the events of the frame and the live objects after it
    (the [Walls] object is never deleted). *)
Definition renderScene (live : list ItemPtr) (bsptree : BSPTree)
           (camera : Camera) (deltaTime : R) (checkFrustum : bool)
  : list SceneEvent * list ItemPtr :=
  let visibleItems := getCurrentFrontItems position bsptree camera checkFrustum in
  let walls := newAddress live in
  (flat_map (renderItem deltaTime) visibleItems ++ [NewWalls walls; Render walls],
   walls :: live).

End Scene.

(** ** Notions the properties are stated with *)

(** The anchors linked below a node (the node's own anchor included), back
    subtree first. *)
Fixpoint items (t : BSPTree) : list ItemPtr :=
  match t with
  | mkBSPTree pItem front back =>
      (match back with Some b => items b | None => [] end)
      ++ pItem ::
      (match front with Some f => items f | None => [] end)
  end.

Definition itemsOpt (o : option BSPTree) : list ItemPtr :=
  match o with Some t => items t | None => [] end.

(** The anchors of the nodes other than the root. *)
Definition residents (t : BSPTree) : list ItemPtr :=
  itemsOpt (back t) ++ itemsOpt (front t).

(** The [delete]s of removing each of the objects as a leaf. *)
Definition leafDeletes (objects : list ItemPtr) : list MemEvent :=
  flat_map (fun o => [DeleteItem o; DeleteNode o]) objects.

(** The [Render] receivers of a frame, in order. *)
Fixpoint renderCalls (events : list SceneEvent) : list ItemPtr :=
  match events with
  | [] => []
  | Render item :: rest => item :: renderCalls rest
  | _ :: rest => renderCalls rest
  end.

Section Notions.

Variable position : ItemPtr -> vec3.

(** Front/back consistency of every node with its own anchor's plane. *)
Fixpoint classified (t : BSPTree) : Prop :=
  match t with
  | mkBSPTree pItem front back =>
      (match front with
       | Some f =>
           (forall o, In o (items f) ->
                      dot (sub (position o) (position pItem)) normal >= 0)
           /\ classified f
       | None => True
       end)
      /\
      (match back with
       | Some b =>
           (forall o, In o (items b) ->
                      dot (sub (position o) (position pItem)) normal < 0)
           /\ classified b
       | None => True
       end)
  end.

(** Construction followed by a sequence of [insert] calls. *)
Definition insertAll (t : BSPTree) (objects : list ItemPtr) : BSPTree :=
  fold_left (insert position) objects t.

(** A sequence of [remove] calls: the final tree and all the [delete]s. *)
Fixpoint removeAll (t : BSPTree) (objects : list ItemPtr)
  : BSPTree * list MemEvent :=
  match objects with
  | [] => (t, [])
  | o :: rest =>
      let (t1, log1) := remove position t o in
      let (t2, log2) := removeAll t1 rest in
      (t2, log1 ++ log2)
  end.

(** Whether the descent of [remove] meets a child whose anchor is [item]
    (by address). *)
Fixpoint onDescent (this : BSPTree) (item : ItemPtr) : bool :=
  match this with
  | mkBSPTree pItem front back =>
      if Rltb (dotProduct position item pItem) 0 then
        match back with
        | Some b => Nat.eqb (partitionItem b) item || onDescent b item
        | None => false
        end
      else
        match front with
        | Some f => Nat.eqb (partitionItem f) item || onDescent f item
        | None => false
        end
  end.

(** The test of [getAllFrontItems] that decides between its two branches. *)
Definition isInFront (camera : Camera) (pItem : ItemPtr) : bool :=
  Rgtb (dot (sub (position pItem) (Position camera)) (Front camera)) 0.

Definition isInFrustum (camera : Camera) (checkFrustum : bool)
           (pItem : ItemPtr) : bool :=
  negb checkFrustum || isPointInFrustum (position pItem) camera.

(** What a subtree appends to [result]. *)
Definition emitted (camera : Camera) (checkFrustum : bool)
           (o : option BSPTree) : list ItemPtr :=
  match o with
  | Some t => getAllFrontItems position t camera [] checkFrustum
  | None => []
  end.

(** [visited camera checkFrustum root n]: the traversal started at [root]
    calls [getAllFrontItems] on the node [n] and gets past the null test. *)
Inductive visited (camera : Camera) (checkFrustum : bool)
  : BSPTree -> BSPTree -> Prop :=
| visited_here t :
    partitionItem t <> nullptr -> visited camera checkFrustum t t
| visited_front pItem f b n :
    pItem <> nullptr ->
    visited camera checkFrustum f n ->
    visited camera checkFrustum (mkBSPTree pItem (Some f) b) n
| visited_back pItem f b n :
    pItem <> nullptr ->
    isInFront camera pItem && isInFrustum camera checkFrustum pItem = true ->
    visited camera checkFrustum b n ->
    visited camera checkFrustum (mkBSPTree pItem f (Some b)) n.

End Notions.

(** ** The scenes used as concrete inputs *)

Module Scenario.

(** Root anchor at the origin, [objA] at (0,0,-5), [objB] at (0,0,5);
    further objects [objC] at (0,0,-2), [objD] at (0,0,-7), and [objE] at
    the position of [objB]. *)
Definition root : ItemPtr := 1%nat.
Definition objA : ItemPtr := 2%nat.
Definition objB : ItemPtr := 3%nat.
Definition objC : ItemPtr := 4%nat.
Definition objD : ItemPtr := 5%nat.
Definition objE : ItemPtr := 6%nat.

Definition position (item : ItemPtr) : vec3 :=
  match item with
  | 2%nat => mkvec3 0 0 (-5)
  | 3%nat => mkvec3 0 0 5
  | 4%nat => mkvec3 0 0 (-2)
  | 5%nat => mkvec3 0 0 (-7)
  | 6%nat => mkvec3 0 0 5
  | _ => mkvec3 0 0 0
  end.

(** Camera at (0,0,10) looking down the negative z axis, with the default
    field of view of camera.h. *)
Definition camera : Camera :=
  mkCamera (mkvec3 0 0 10) (mkvec3 0 0 (-1)) (mkvec3 0 1 0) 75.

(** The same view direction from (0,0,-2): the root anchor is behind it. *)
Definition cameraPast : Camera :=
  mkCamera (mkvec3 0 0 (-2)) (mkvec3 0 0 (-1)) (mkvec3 0 1 0) 75.

(** A camera with a 90 degree field of view, placed at (0,-2,1): the root
    anchor is in front of it but too far above its axis. *)
Definition cameraBelow : Camera :=
  mkCamera (mkvec3 0 (-2) 1) (mkvec3 0 0 (-1)) (mkvec3 0 1 0) 90.

(** A camera at the origin, and one at (1,2,3) with a field of view of 90
    degrees; both look down the negative z axis. *)
Definition cameraOrigin : Camera :=
  mkCamera (mkvec3 0 0 0) (mkvec3 0 0 (-1)) (mkvec3 0 1 0) 75.

Definition cameraWide : Camera :=
  mkCamera (mkvec3 1 2 3) (mkvec3 0 0 (-1)) (mkvec3 0 1 0) 90.

(** Two meshes of one part. *)
Definition highMesh : GLMesh := mkGLMesh 1 36 36.
Definition lowMesh : GLMesh := mkGLMesh 2 12 12.

Definition tree : BSPTree :=
  insert position (insert position (newBSPTree root) objA) objB.

(** A tree in which the node of [objA] has both children. *)
Definition bushy : BSPTree :=
  insertAll position (newBSPTree root) [objA; objC; objD].

(** A tree with two distinct objects at one position. *)
Definition twins : BSPTree :=
  insertAll position (newBSPTree root) [objB; objE].

End Scenario.

(** Induction over a tree and its two optional children. *)
Definition onChild (P : BSPTree -> Prop) (o : option BSPTree) : Prop :=
  match o with Some t => P t | None => True end.

Section BSPTree_induction.

Variable P : BSPTree -> Prop.
Hypothesis step :
  forall pItem f b, onChild P f -> onChild P b -> P (mkBSPTree pItem f b).

Fixpoint BSPTree_induction (t : BSPTree) : P t :=
  match t with
  | mkBSPTree pItem f b =>
      step pItem f b
           (match f return onChild P f with
            | Some f' => BSPTree_induction f'
            | None => I
            end)
           (match b return onChild P b with
            | Some b' => BSPTree_induction b'
            | None => I
            end)
  end.

End BSPTree_induction.

(** ** Notions for the properties beyond the tree's specification *)

Section Matching.

Variable position : ItemPtr -> vec3.

(** The child [temp] that [remove(item)] matches, when its descent meets
    one. *)
Fixpoint foundNode (this : BSPTree) (item : ItemPtr) : option BSPTree :=
  match this with
  | mkBSPTree pItem front back =>
      if Rltb (dotProduct position item pItem) 0 then
        match back with
        | Some b =>
            if Nat.eqb (partitionItem b) item then Some b
            else foundNode b item
        | None => None
        end
      else
        match front with
        | Some f =>
            if Nat.eqb (partitionItem f) item then Some f
            else foundNode f item
        | None => None
        end
  end.


End Matching.

(** The items, and the nodes (by anchor), a log deletes. *)
Fixpoint deletedItems (log : list MemEvent) : list ItemPtr :=
  match log with
  | [] => []
  | DeleteItem item :: rest => item :: deletedItems rest
  | DeleteNode _ :: rest => deletedItems rest
  end.

Fixpoint deletedNodes (log : list MemEvent) : list ItemPtr :=
  match log with
  | [] => []
  | DeleteNode anchor :: rest => anchor :: deletedNodes rest
  | DeleteItem _ :: rest => deletedNodes rest
  end.

(** [Subseq l1 l2]: [l1] is [l2] with some elements left out. *)
Inductive Subseq : list ItemPtr -> list ItemPtr -> Prop :=
| Subseq_nil : Subseq [] []
| Subseq_skip a l1 l2 : Subseq l1 l2 -> Subseq l1 (a :: l2)
| Subseq_keep a l1 l2 : Subseq l1 l2 -> Subseq (a :: l1) (a :: l2).

(** The [move] calls of a frame, in order. *)
Fixpoint moveCalls (events : list SceneEvent) : list (ItemPtr * R) :=
  match events with
  | [] => []
  | Move item deltaTime :: rest => (item, deltaTime) :: moveCalls rest
  | _ :: rest => moveCalls rest
  end.

Module Fixtures.

(** The store of [Scenario] with every object moved by (1,2,0). *)
Definition shifted (item : ItemPtr) : vec3 :=
  add (Scenario.position item) (mkvec3 1 2 0).

End Fixtures.

(** ** camera.h: the whole class *)

Module FullCamera.

Inductive Camera_Movement : Type :=
| FORWARD | BACKWARD | LEFT | RIGHT | DOWN | UP.

Definition Camera_Movement_eqb (a b : Camera_Movement) : bool :=
  match a, b with
  | FORWARD, FORWARD | BACKWARD, BACKWARD | LEFT, LEFT
  | RIGHT, RIGHT | DOWN, DOWN | UP, UP => true
  | _, _ => false
  end.

Definition YAW : R := -90.
Definition PITCH : R := -8.
Definition SPEED : R := 5 / 2.
Definition SENSITIVITY : R := 1 / 10.
Definition ZOOM : R := 45.

Record t : Type := mk {
  Position : vec3;
  Front : vec3;
  Up : vec3;
  Right : vec3;
  WorldUp : vec3;
  Yaw : R;
  Pitch : R;
  MovementSpeed : R;
  MouseSensitivity : R;
  Zoom : R;
  Fov : R
}.

(** What the visibility code reads of a camera. *)
Definition view (c : t) : Camera :=
  mkCamera (Position c) (Front c) (Up c) (Fov c).

(** [updateCameraVectors] *)
Definition updateCameraVectors (c : t) : t :=
  let front :=
    mkvec3 (cos (radians (Yaw c)) * cos (radians (Pitch c)))
           (sin (radians (Pitch c)))
           (sin (radians (Yaw c)) * cos (radians (Pitch c))) in
  let Front' := normalize front in
  let Right' := normalize (cross Front' (WorldUp c)) in
  let Up' := normalize (cross Right' Front') in
  mk (Position c) Front' Up' Right' (WorldUp c) (Yaw c) (Pitch c)
     (MovementSpeed c) (MouseSensitivity c) (Zoom c) (Fov c).

(** [Camera(position, up, yaw, pitch)].  [Up] and [Right] have no value
    before [updateCameraVectors] assigns them; the zero vectors below stand
    for that and are not read. *)
Definition new (position up : vec3) (yaw pitch : R) : t :=
  updateCameraVectors
    (mk position (mkvec3 0 0 (-1)) (mkvec3 0 0 0) (mkvec3 0 0 0) up yaw pitch
        SPEED SENSITIVITY ZOOM 75).

Definition setPosition (c : t) (position : vec3) : t :=
  mk position (Front c) (Up c) (Right c) (WorldUp c) (Yaw c) (Pitch c)
     (MovementSpeed c) (MouseSensitivity c) (Zoom c) (Fov c).

(** [ProcessKeyboard]: six [if]s in a row *)
Definition ProcessKeyboard (direction : Camera_Movement) (deltaTime : R)
           (c : t) : t :=
  let velocity := MovementSpeed c * deltaTime in
  let c := if Camera_Movement_eqb direction FORWARD
           then setPosition c (add (Position c) (scale (Front c) velocity))
           else c in
  let c := if Camera_Movement_eqb direction BACKWARD
           then setPosition c (sub (Position c) (scale (Front c) velocity))
           else c in
  let c := if Camera_Movement_eqb direction LEFT
           then setPosition c (sub (Position c) (scale (Right c) velocity))
           else c in
  let c := if Camera_Movement_eqb direction RIGHT
           then setPosition c (add (Position c) (scale (Right c) velocity))
           else c in
  let c := if Camera_Movement_eqb direction DOWN
           then setPosition c (sub (Position c) (scale (Up c) velocity))
           else c in
  if Camera_Movement_eqb direction UP
  then setPosition c (add (Position c) (scale (Up c) velocity))
  else c.

Definition setAngles (c : t) (yaw pitch : R) : t :=
  mk (Position c) (Front c) (Up c) (Right c) (WorldUp c) yaw pitch
     (MovementSpeed c) (MouseSensitivity c) (Zoom c) (Fov c).

(** [ProcessMouseMovement] *)
Definition ProcessMouseMovement (xoffset yoffset : R) (constrainPitch : bool)
           (c : t) : t :=
  let xoffset := xoffset * MouseSensitivity c in
  let yoffset := yoffset * MouseSensitivity c in
  let yaw := Yaw c + xoffset in
  let pitch := Pitch c + yoffset in
  let pitch :=
    if constrainPitch then
      let pitch := if Rgtb pitch 89 then 89 else pitch in
      if Rltb pitch (-89) then -89 else pitch
    else pitch in
  updateCameraVectors (setAngles c yaw pitch).

(** [ProcessMouseScroll] *)
Definition ProcessMouseScroll (yoffset : R) (c : t) : t :=
  let speed := MovementSpeed c - yoffset in
  let speed := if Rltb speed 1 then 1 else speed in
  let speed := if Rgtb speed 45 then 45 else speed in
  mk (Position c) (Front c) (Up c) (Right c) (WorldUp c) (Yaw c) (Pitch c)
     speed (MouseSensitivity c) (Zoom c) (Fov c).

(** [InvertFront] *)
Definition InvertFront (c : t) : t :=
  let yaw := Yaw c + 180 in
  let yaw := if Rgtb yaw 360 then yaw - 360 else yaw in
  updateCameraVectors (setAngles c yaw (Pitch c)).

End FullCamera.

(** ** Item::drawObject and FireFly *)

(** [glm::vec4], and [glm::mat4] as its four columns ([m[i]] is column
    [i]); the product of matrices, and the two matrix builders the code
    calls with a vector.  [glm::rotate] is not modelled: a rotation is a
    matrix the caller passes. *)
Module Mat.

Record vec4 : Type := mkvec4 { x4 : R; y4 : R; z4 : R; w4 : R }.

Record mat4 : Type := mkmat4 {
  col0 : vec4; col1 : vec4; col2 : vec4; col3 : vec4
}.

(** [m * v] *)
Definition mulVec (m : mat4) (v : vec4) : vec4 :=
  mkvec4
    (x4 (col0 m) * x4 v + x4 (col1 m) * y4 v + x4 (col2 m) * z4 v
     + x4 (col3 m) * w4 v)
    (y4 (col0 m) * x4 v + y4 (col1 m) * y4 v + y4 (col2 m) * z4 v
     + y4 (col3 m) * w4 v)
    (z4 (col0 m) * x4 v + z4 (col1 m) * y4 v + z4 (col2 m) * z4 v
     + z4 (col3 m) * w4 v)
    (w4 (col0 m) * x4 v + w4 (col1 m) * y4 v + w4 (col2 m) * z4 v
     + w4 (col3 m) * w4 v).

(** [a * b] *)
Definition mul (a b : mat4) : mat4 :=
  mkmat4 (mulVec a (col0 b)) (mulVec a (col1 b)) (mulVec a (col2 b))
         (mulVec a (col3 b)).

Definition identity : mat4 :=
  mkmat4 (mkvec4 1 0 0 0) (mkvec4 0 1 0 0) (mkvec4 0 0 1 0) (mkvec4 0 0 0 1).

(** [glm::scale(v)] *)
Definition scaling (v : vec3) : mat4 :=
  mkmat4 (mkvec4 (x v) 0 0 0) (mkvec4 0 (y v) 0 0) (mkvec4 0 0 (z v) 0)
         (mkvec4 0 0 0 1).

(** [glm::translate(v)] *)
Definition translate (v : vec3) : mat4 :=
  mkmat4 (mkvec4 1 0 0 0) (mkvec4 0 1 0 0) (mkvec4 0 0 1 0)
         (mkvec4 (x v) (y v) (z v) 1).

(** [glm::vec3(v)] for a [vec4] *)
Definition xyz (v : vec4) : vec3 := mkvec3 (x4 v) (y4 v) (z4 v).

(** The point [v], in homogeneous coordinates. *)
Definition point (v : vec3) : vec4 := mkvec4 (x v) (y v) (z v) 1.

End Mat.

(** [struct Transform] (Item.h) *)
Record Transform : Type := mkTransform {
  transformScale : Mat.mat4;
  transformRotation : Mat.mat4;
  transformTranslation : Mat.mat4
}.

(** [Item::drawObject]: the matrix given to [lightingShader.setMat4("model",
    ...)], and the vector that is assigned to [position], assigned to
    [initialPosition] and returned. *)
Definition drawObject (scaleVec : vec3) (rotation : Mat.mat4)
           (translateVec : vec3) (transformData : Transform)
  : Mat.mat4 * vec3 :=
  let scale := Mat.scaling scaleVec in
  let translation := Mat.translate translateVec in
  let model :=
    Mat.mul
      (Mat.mul
         (Mat.mul
            (Mat.mul
               (Mat.mul (transformTranslation transformData)
                        (transformRotation transformData))
               (transformScale transformData))
            translation)
         rotation)
      scale in
  (model, Mat.xyz (Mat.col3 model)).

Module FireFlyClass.

(** The fields of a [FireFly]: those of [Item] that its code writes, and its
    own. *)
Record t : Type := mk {
  position : vec3;
  initialPosition : vec3;
  transformData : Transform;
  speed : R;
  angle : R
}.

(** [static_cast<float>(rand()) / static_cast<float>(RAND_MAX)], for the
    value [r] that [rand()] returned *)
Definition unitRand (RAND_MAX r : nat) : R := INR r / INR RAND_MAX.

(** [FireFly::move]; [r1] to [r4] are the results of its four calls of
    [rand()], in the order of the calls. *)
Definition move (RAND_MAX r1 r2 r3 r4 : nat) (deltaTime : R) (s : t) : t :=
  let speed := speed s + unitRand RAND_MAX r1 * (1 / 100) - 5 / 1000 in
  let speed :=
    if Rgtb (length (sub (initialPosition s) (position s))) 3
    then - speed else speed in
  let angle := angle s + speed * deltaTime in
  let angle := angle + unitRand RAND_MAX r2 * (1 / 10) - 5 / 100 in
  let px :=
    x (position s)
    + speed * deltaTime
      * (sin angle + unitRand RAND_MAX r3 * (2 / 10) - 1 / 10) in
  let py :=
    y (position s)
    + speed * deltaTime
      * (cos angle + unitRand RAND_MAX r4 * (2 / 10) - 1 / 10) in
  mk (mkvec3 px py (z (position s))) (initialPosition s) (transformData s)
     speed angle.

(** What [FireFly::render] issues: GL calls and the shader's uniform. *)
Inductive RenderCall : Type :=
| glActiveTexture (unit : nat)
| glBindTexture (texture : nat)
| setMat4_model (model : Mat.mat4)
| gl (call : GLCall).

(** [FireFly::render].  [rotation] is the value of the product of the two
    [glm::rotate] matrices, [gTextureYellow], [gSphereMesh] and
    [gLowSphereMesh] are the members of [gTexture] and [gMesh] it reads. *)
Definition render (camera : Camera) (gTextureYellow : nat)
           (gSphereMesh gLowSphereMesh : GLMesh) (rotation : Mat.mat4)
           (s : t) : t * list RenderCall :=
  let (model, translationVec) :=
    drawObject (mkvec3 (5 / 100) (5 / 100) (5 / 100)) rotation (position s)
               (transformData s) in
  (mk translationVec translationVec (transformData s) (speed s) (angle s),
   [glActiveTexture 0; glBindTexture gTextureYellow; setMat4_model model]
     ++ map gl (drawMeshBasedOnDistance camera gSphereMesh gLowSphereMesh
                                        translationVec false)
     ++ [gl (glBindVertexArray 0)]).

End FireFlyClass.

Module MoreFixtures.

(** A default-constructed [Transform]: three identity matrices. *)
Definition identityTransform : Transform :=
  mkTransform Mat.identity Mat.identity Mat.identity.

(** A quarter turn about the z axis, and a transform that moves by
    (1,0,-3). *)
Definition quarterTurn : Mat.mat4 :=
  Mat.mkmat4 (Mat.mkvec4 0 1 0 0) (Mat.mkvec4 (-1) 0 0 0) (Mat.mkvec4 0 0 1 0)
             (Mat.mkvec4 0 0 0 1).

Definition movedTransform : Transform :=
  mkTransform Mat.identity Mat.identity (Mat.translate (mkvec3 1 0 (-3))).

(** A firefly of [initializeScene], after it has flown a while. *)
Definition firefly : FireFlyClass.t :=
  FireFlyClass.mk (mkvec3 4 7 (-5 / 2)) (mkvec3 0 4 (-5 / 2))
                  identityTransform (11295 / 10000) 0.

End MoreFixtures.

(** * Properties *)

(** ** Comparisons and vectors *)

Lemma Rltb_true x y : x < y -> Rltb x y = true.
Proof. intros H; unfold Rltb; destruct (Rlt_dec x y); [reflexivity | contradiction]. Qed.

Lemma Rltb_false x y : y <= x -> Rltb x y = false.
Proof. intros H; unfold Rltb; destruct (Rlt_dec x y); [lra | reflexivity]. Qed.

Lemma Rleb_true x y : x <= y -> Rleb x y = true.
Proof. intros H; unfold Rleb; destruct (Rle_dec x y); [reflexivity | contradiction]. Qed.

Lemma Rleb_false x y : y < x -> Rleb x y = false.
Proof. intros H; unfold Rleb; destruct (Rle_dec x y); [lra | reflexivity]. Qed.

Lemma Rltb_spec x y : Rltb x y = true <-> x < y.
Proof.
  unfold Rltb; destruct (Rlt_dec x y); split; intros; try reflexivity; try assumption.
  - discriminate.
  - contradiction.
Qed.

Lemma Rltb_nspec x y : Rltb x y = false <-> y <= x.
Proof.
  unfold Rltb; destruct (Rlt_dec x y); split; intros; try reflexivity; try lra;
    try discriminate.
Qed.

Lemma vec3_eq (a b : vec3) : x a = x b -> y a = y b -> z a = z b -> a = b.
Proof. destruct a, b; simpl; intros; subst; reflexivity. Qed.


(** ** Tactics that unfold the vector arithmetic and decide comparisons *)

Ltac vec_unfold :=
  cbv [frustumPlanes normalize cross dot sub add scale length Glm.x Glm.y Glm.z
       Position Front Up Fov nearPlane farPlane aspectRatio].

Ltac scene_unfold :=
  cbv [dotProduct isInFront isInFrustum calculateDistance
       Scenario.position Scenario.camera Scenario.cameraPast Scenario.cameraBelow
       Scenario.root Scenario.objA Scenario.objB Scenario.objC Scenario.objD
       Scenario.objE
       normal dot sub add scale cross Glm.x Glm.y Glm.z Position Front Up Fov].

Ltac Rcompare :=
  repeat first
    [ rewrite Rltb_true by (scene_unfold; lra)
    | rewrite Rltb_false by (scene_unfold; lra)
    | rewrite Rleb_true by (scene_unfold; lra)
    | rewrite Rleb_false by (scene_unfold; lra) ].

(** ** The traversal *)

Section Traversal.

Variable position : ItemPtr -> vec3.
Variable camera : Camera.
Variable checkFrustum : bool.

Local Abbreviation emit := (emitted position camera checkFrustum).
Local Abbreviation passes pItem :=
  (isInFront position camera pItem
   && isInFrustum position camera checkFrustum pItem).

(** [result] is only ever appended to. *)
Lemma getAllFrontItems_app (t : BSPTree) :
  forall result,
    getAllFrontItems position t camera result checkFrustum
    = result ++ getAllFrontItems position t camera [] checkFrustum.
Proof.
  induction t as [pItem f b IHf IHb] using BSPTree_induction.
  intros result. simpl.
  destruct (Nat.eqb pItem nullptr); [now rewrite app_nil_r|].
  assert (Hb : forall r,
             match b with
             | Some b' => getAllFrontItems position b' camera r checkFrustum
             | None => r
             end = r ++ emit b).
  { intros r. destruct b as [b'|]; simpl in *; [apply IHb | now rewrite app_nil_r]. }
  assert (Hf : forall r,
             match f with
             | Some f' => getAllFrontItems position f' camera r checkFrustum
             | None => r
             end = r ++ emit f).
  { intros r. destruct f as [f'|]; simpl in *; [apply IHf | now rewrite app_nil_r]. }
  destruct (_ && _).
  - rewrite (Hf (_ ++ [pItem])), (Hb result).
    rewrite (Hf (_ ++ [pItem])), (Hb []).
    simpl. now rewrite <- !app_assoc.
  - rewrite (Hf result), (Hf []). reflexivity.
Qed.

(** The branch taken at a node with a non-null anchor that passes both
    tests. *)
Lemma getAllFrontItems_pass pItem f b result :
  pItem <> nullptr ->
  passes pItem = true ->
  getAllFrontItems position (mkBSPTree pItem f b) camera result checkFrustum
  = result ++ emit b ++ [pItem] ++ emit f.
Proof.
  intros Hnull Hpass. simpl.
  apply Nat.eqb_neq in Hnull. rewrite Hnull.
  unfold isInFront, isInFrustum in Hpass. rewrite Hpass.
  destruct b as [b'|], f as [f'|]; simpl.
  - rewrite getAllFrontItems_app, (getAllFrontItems_app b').
    now rewrite <- !app_assoc.
  - rewrite (getAllFrontItems_app b'). now rewrite <- !app_assoc.
  - now rewrite getAllFrontItems_app, <- app_assoc.
  - reflexivity.
Qed.

(** The branch taken at a node with a non-null anchor that fails one of
    the tests. *)
Lemma getAllFrontItems_fail pItem f b result :
  pItem <> nullptr ->
  passes pItem = false ->
  getAllFrontItems position (mkBSPTree pItem f b) camera result checkFrustum
  = result ++ emit f.
Proof.
  intros Hnull Hfail. simpl.
  apply Nat.eqb_neq in Hnull. rewrite Hnull.
  unfold isInFront, isInFrustum in Hfail. rewrite Hfail.
  destruct f as [f'|]; simpl.
  - apply getAllFrontItems_app.
  - now rewrite app_nil_r.
Qed.

(** What a visited node appends is a contiguous segment of the query's
    result. *)
Lemma visited_segment root n :
  visited position camera checkFrustum root n ->
  exists pre post,
    getCurrentFrontItems position root camera checkFrustum
    = pre ++ emit (Some n) ++ post.
Proof.
  unfold getCurrentFrontItems.
  induction 1 as [t Ht | pItem f b n Hnull Hv IH | pItem f b n Hnull Hp Hv IH].
  - exists [], []. simpl. now rewrite app_nil_r.
  - destruct IH as (pre & post & IH).
    destruct (passes pItem) eqn:Hp.
    + rewrite getAllFrontItems_pass by assumption.
      change (emit (Some f))
        with (getAllFrontItems position f camera [] checkFrustum).
      rewrite IH.
      exists (emit b ++ pItem :: pre), post.
      simpl. now rewrite <- !app_assoc.
    + rewrite getAllFrontItems_fail by assumption.
      change (emit (Some f))
        with (getAllFrontItems position f camera [] checkFrustum).
      rewrite IH.
      now exists pre, post.
  - destruct IH as (pre & post & IH).
    rewrite getAllFrontItems_pass by assumption.
    change (emit (Some b))
      with (getAllFrontItems position b camera [] checkFrustum).
    rewrite IH.
    exists pre, (post ++ pItem :: emit f).
    simpl. now rewrite <- !app_assoc.
Qed.

End Traversal.

Lemma visited_nonnull position camera checkFrustum root n :
  visited position camera checkFrustum root n -> partitionItem n <> nullptr.
Proof. induction 1; assumption. Qed.

(** C3.  At every node the traversal visits whose anchor is strictly in front
    of the camera and passes the frustum test (or the filter is off), the
    node appends what its back subtree emits, then its anchor, then what its
    front subtree emits; and this run of items appears, in that order, in the
    list the query returns. *)
Theorem in_front_node_emits_back_anchor_front
        (position : ItemPtr -> vec3) (camera : Camera) (checkFrustum : bool)
        (root : BSPTree) (pItem : ItemPtr) (f b : option BSPTree) :
  visited position camera checkFrustum root (mkBSPTree pItem f b) ->
  dot (sub (position pItem) (Position camera)) (Front camera) > 0 ->
  checkFrustum = false \/ isPointInFrustum (position pItem) camera = true ->
  (forall result,
      getAllFrontItems position (mkBSPTree pItem f b) camera result checkFrustum
      = result ++ emitted position camera checkFrustum b ++ [pItem]
               ++ emitted position camera checkFrustum f)
  /\ exists pre post,
      getCurrentFrontItems position root camera checkFrustum
      = pre ++ (emitted position camera checkFrustum b ++ [pItem]
                ++ emitted position camera checkFrustum f) ++ post.
Proof.
  intros Hv Hfront Hfrustum.
  pose proof (visited_nonnull _ _ _ _ _ Hv) as Hnull. simpl in Hnull.
  assert (Hpass : isInFront position camera pItem
                  && isInFrustum position camera checkFrustum pItem = true).
  { apply andb_true_intro. split.
    - apply Rltb_true. lra.
    - unfold isInFrustum. destruct Hfrustum as [-> | ->]; [reflexivity|].
      apply orb_true_r. }
  split.
  - intros result. now apply getAllFrontItems_pass.
  - destruct (visited_segment _ _ _ _ _ Hv) as (pre & post & Heq).
    exists pre, post. rewrite Heq. f_equal. f_equal.
    unfold emitted at 1.
    now rewrite (getAllFrontItems_pass position camera checkFrustum pItem f b []).
Qed.

(** C4.  At every node the traversal visits whose anchor is not in front of
    the camera, or fails the frustum test while the filter is on, the node
    appends exactly what its front subtree emits: the anchor is not appended
    and the back subtree is not entered, whatever it holds.  An anchor that
    is in front and only fails the frustum test is one of these nodes. *)
Theorem failing_node_skips_anchor_and_back
        (position : ItemPtr -> vec3) (camera : Camera) (checkFrustum : bool)
        (root : BSPTree) (pItem : ItemPtr) (f b : option BSPTree) :
  visited position camera checkFrustum root (mkBSPTree pItem f b) ->
  ~ dot (sub (position pItem) (Position camera)) (Front camera) > 0
  \/ (checkFrustum = true /\ isPointInFrustum (position pItem) camera = false) ->
  (forall result b',
      getAllFrontItems position (mkBSPTree pItem f b') camera result checkFrustum
      = result ++ emitted position camera checkFrustum f)
  /\ (forall n,
         visited position camera checkFrustum (mkBSPTree pItem f b) n ->
         n = mkBSPTree pItem f b
         \/ exists f', f = Some f' /\ visited position camera checkFrustum f' n)
  /\ exists pre post,
      getCurrentFrontItems position root camera checkFrustum
      = pre ++ emitted position camera checkFrustum f ++ post.
Proof.
  intros Hv Hfail.
  pose proof (visited_nonnull _ _ _ _ _ Hv) as Hnull. simpl in Hnull.
  assert (Hpass : isInFront position camera pItem
                  && isInFrustum position camera checkFrustum pItem = false).
  { destruct Hfail as [Hback | [-> Hout]].
    - apply andb_false_intro1. apply Rltb_false. lra.
    - apply andb_false_intro2. unfold isInFrustum. now rewrite Hout. }
  split; [|split].
  - intros result b'. now apply getAllFrontItems_fail.
  - intros n Hn. inversion Hn; subst.
    + now left.
    + right. eexists; split; [reflexivity | assumption].
    + congruence.
  - destruct (visited_segment _ _ _ _ _ Hv) as (pre & post & Heq).
    exists pre, post. rewrite Heq. f_equal. f_equal.
    unfold emitted at 1.
    now rewrite (getAllFrontItems_fail position camera checkFrustum pItem f b []).
Qed.

(** ** The frustum test *)

Lemma isPointInFrustum_true point camera :
  isPointInFrustum point camera = true
  <-> Forall (fun plane =>
                dot (sub point (Position camera)) (sub plane (Position camera)) >= 0)
             (frustumPlanes camera).
Proof.
  unfold isPointInFrustum. rewrite forallb_forall, Forall_forall.
  split; intros H plane Hin; specialize (H plane Hin).
  - apply negb_true_iff, Rltb_nspec in H. lra.
  - apply negb_true_iff, Rltb_nspec. lra.
Qed.

(** Every point on the camera's axis, at a distance [k >= 0] along [Front],
    has a non-negative dot product with each of the six reference points:
    the offsets along [up] and [right] are orthogonal to [Front]. *)
Lemma on_axis_dots camera k :
  0 <= k ->
  Forall (fun plane =>
            dot (sub (add (Position camera) (scale (Front camera) k))
                     (Position camera))
                (sub plane (Position camera)) >= 0)
         (frustumPlanes camera).
Proof.
  intros Hk.
  destruct camera as [[p1 p2 p3] [f1 f2 f3] [u1 u2 u3] fov].
  vec_unfold.
  set (t := tan _). set (r := / sqrt _). set (s := / sqrt _).
  assert (Hff : 0 <= k * (f1 * f1 + f2 * f2 + f3 * f3)) by nra.
  repeat apply Forall_cons; [ .. | apply Forall_nil ]; cbv beta.
  1-5: match goal with
       | |- ?e >= 0 =>
           replace e with (k * (f1 * f1 + f2 * f2 + f3 * f3) * (1 / 10)) by ring
       end; lra.
  match goal with
  | |- ?e >= 0 =>
      replace e with (k * (f1 * f1 + f2 * f2 + f3 * f3) * 100) by ring
  end; lra.
Qed.

Lemma in_frustum_on_axis camera point k :
  0 <= k ->
  point = add (Position camera) (scale (Front camera) k) ->
  isPointInFrustum point camera = true.
Proof.
  intros Hk ->. apply isPointInFrustum_true. now apply on_axis_dots.
Qed.

(** C9.  For every camera whose [Front] and [Up] are orthonormal, whatever
    its field of view (90 degrees included), the point
    [Position + Front * 50] has a non-negative dot product with each of the
    six reference points, and [isPointInFrustum] returns [true] for it. *)
Theorem on_axis_point_is_visible (camera : Camera) :
  dot (Front camera) (Front camera) = 1 ->
  dot (Up camera) (Up camera) = 1 ->
  dot (Front camera) (Up camera) = 0 ->
  let point := add (Position camera) (scale (Front camera) 50) in
  Forall (fun referencePoint =>
            dot (sub point (Position camera))
                (sub referencePoint (Position camera)) >= 0)
         (frustumPlanes camera)
  /\ List.length (frustumPlanes camera) = 6%nat
  /\ isPointInFrustum point camera = true.
Proof.
  intros _ _ _ point. split; [|split].
  - apply on_axis_dots. lra.
  - reflexivity.
  - apply (in_frustum_on_axis camera point 50); [lra | reflexivity].
Qed.

(** The witness camera looks down the negative z axis with a field of view
    of 90 degrees. *)
Lemma on_axis_point_is_visible_witness :
  isPointInFrustum
    (add (Position Scenario.cameraWide) (scale (Front Scenario.cameraWide) 50))
    Scenario.cameraWide
  = true.
Proof.
  apply (on_axis_point_is_visible Scenario.cameraWide);
    cbv [Scenario.cameraWide dot Front Up Glm.x Glm.y Glm.z]; lra.
Defined.

(** ** Evaluating the code on the concrete scenes *)

Lemma scenario_tree :
  Scenario.tree
  = mkBSPTree Scenario.root (Some (newBSPTree Scenario.objB))
              (Some (newBSPTree Scenario.objA)).
Proof.
  unfold Scenario.tree, newBSPTree. simpl. Rcompare. simpl. Rcompare. reflexivity.
Qed.

Lemma scenario_passes (checkFrustum : bool) (item : ItemPtr) :
  item = Scenario.root \/ item = Scenario.objA \/ item = Scenario.objB ->
  isInFront Scenario.position Scenario.camera item
  && isInFrustum Scenario.position Scenario.camera checkFrustum item = true.
Proof.
  intros H. apply andb_true_intro. split.
  - unfold isInFront, Rgtb. destruct H as [-> | [-> | ->]]; Rcompare; reflexivity.
  - unfold isInFrustum. destruct checkFrustum; [|reflexivity]. simpl.
    destruct H as [-> | [-> | ->]].
    + apply (in_frustum_on_axis _ _ 10); [lra|]. apply vec3_eq; scene_unfold; lra.
    + apply (in_frustum_on_axis _ _ 15); [lra|]. apply vec3_eq; scene_unfold; lra.
    + apply (in_frustum_on_axis _ _ 5); [lra|]. apply vec3_eq; scene_unfold; lra.
Qed.

Lemma scenario_query (checkFrustum : bool) :
  getCurrentFrontItems Scenario.position Scenario.tree Scenario.camera checkFrustum
  = [Scenario.objA; Scenario.root; Scenario.objB].
Proof.
  rewrite scenario_tree. unfold getCurrentFrontItems, newBSPTree.
  rewrite getAllFrontItems_pass; [| discriminate | apply scenario_passes; tauto].
  unfold emitted.
  rewrite !getAllFrontItems_pass;
    try discriminate; try (apply scenario_passes; tauto).
  reflexivity.
Qed.

(** Seen from [Scenario.cameraPast] the root anchor is behind the camera:
    only the front subtree is entered, and [objA], which hangs in the back
    subtree, is not reported although it is in front of that camera. *)
Lemma scenario_query_past :
  getCurrentFrontItems Scenario.position Scenario.tree Scenario.cameraPast false
  = []
  /\ isInFront Scenario.position Scenario.cameraPast Scenario.objA = true.
Proof.
  rewrite scenario_tree. unfold getCurrentFrontItems, newBSPTree, isInFront.
  simpl. unfold Rgtb. repeat (Rcompare; simpl). split; reflexivity.
Qed.

(** C2, as the code behaves.  In the scenario (root anchor at the origin, A
    at (0,0,-5), B at (0,0,5), camera at (0,0,10) facing (0,0,-1)) the query
    returns A, the root anchor, B, in this order, with the frustum filter on
    or off: A lies in the root's back subtree and comes before the root
    anchor, and B, which lies in the root's front subtree and is in front of
    the camera, comes after it. *)
Theorem scenario_visible_order (checkFrustum : bool) :
  Scenario.tree
  = mkBSPTree Scenario.root (Some (newBSPTree Scenario.objB))
              (Some (newBSPTree Scenario.objA))
  /\ getCurrentFrontItems Scenario.position Scenario.tree Scenario.camera
                          checkFrustum
     = [Scenario.objA; Scenario.root; Scenario.objB].
Proof. split; [apply scenario_tree | apply scenario_query]. Qed.

(** C2 as stated fails: B is in the list the query returns, with the frustum
    filter off and with it on. *)
Lemma scenario_does_not_exclude_B :
  In Scenario.objB
     (getCurrentFrontItems Scenario.position Scenario.tree Scenario.camera false)
  /\ In Scenario.objB
        (getCurrentFrontItems Scenario.position Scenario.tree Scenario.camera true).
Proof.
  rewrite !scenario_query. simpl. tauto.
Qed.

(** The two cameras of the scenario that make the root anchor fail a test *)

Lemma normalize_unit v : dot v v = 1 -> normalize v = v.
Proof.
  intros H. unfold normalize. rewrite H, sqrt_1, Rinv_1.
  destruct v; apply vec3_eq; cbv [scale Glm.x Glm.y Glm.z]; lra.
Qed.

Lemma tan_radians_90 : tan (radians 90 / 2) = 1.
Proof.
  replace (radians 90 / 2) with (PI / 4) by (unfold radians; lra).
  apply tan_PI4.
Qed.

Lemma cameraBelow_planes :
  frustumPlanes Scenario.cameraBelow
  = [ mkvec3 0 (-19 / 10) (9 / 10);
      mkvec3 0 (-21 / 10) (9 / 10);
      mkvec3 (8 / 45) (-2) (9 / 10);
      mkvec3 (- 8 / 45) (-2) (9 / 10);
      mkvec3 0 (-2) (9 / 10);
      mkvec3 0 (-2) (-99) ].
Proof.
  unfold frustumPlanes, Scenario.cameraBelow.
  cbv [Position Front Up Fov].
  rewrite tan_radians_90.
  assert (Hr : cross (mkvec3 0 0 (-1)) (mkvec3 0 1 0) = mkvec3 1 0 0).
  { apply vec3_eq; cbv [cross Glm.x Glm.y Glm.z]; lra. }
  rewrite Hr.
  rewrite (normalize_unit (mkvec3 1 0 0)) by (cbv [dot Glm.x Glm.y Glm.z]; lra).
  assert (Hu : cross (mkvec3 1 0 0) (mkvec3 0 0 (-1)) = mkvec3 0 1 0).
  { apply vec3_eq; cbv [cross Glm.x Glm.y Glm.z]; lra. }
  rewrite Hu.
  rewrite (normalize_unit (mkvec3 0 1 0)) by (cbv [dot Glm.x Glm.y Glm.z]; lra).
  repeat (f_equal; try (apply vec3_eq; vec_unfold; lra)).
Qed.

Lemma cameraBelow_root_outside :
  isPointInFrustum (Scenario.position Scenario.root) Scenario.cameraBelow = false.
Proof.
  unfold isPointInFrustum. rewrite cameraBelow_planes. simpl forallb.
  rewrite (Rltb_false _ 0) by (scene_unfold; lra).
  rewrite (Rltb_true _ 0) by (scene_unfold; lra).
  reflexivity.
Qed.

Lemma in_front_node_emits_back_anchor_front_witness :
  exists pre post,
    getCurrentFrontItems
      Scenario.position
      (mkBSPTree Scenario.root (Some (newBSPTree Scenario.objB))
                 (Some (newBSPTree Scenario.objA)))
      Scenario.camera true
    = pre ++ ([] ++ [Scenario.objA] ++ []) ++ post.
Proof.
  apply (in_front_node_emits_back_anchor_front
           Scenario.position Scenario.camera true
           (mkBSPTree Scenario.root (Some (newBSPTree Scenario.objB))
                      (Some (newBSPTree Scenario.objA)))
           Scenario.objA None None).
  - apply visited_back;
      [ discriminate
      | apply scenario_passes; tauto
      | apply visited_here; discriminate ].
  - scene_unfold; lra.
  - right. apply (in_frustum_on_axis _ _ 15); [lra|].
    apply vec3_eq; scene_unfold; lra.
Defined.

Lemma failing_node_skips_anchor_and_back_witness :
  getAllFrontItems Scenario.position
                   (mkBSPTree Scenario.root (Some (newBSPTree Scenario.objB))
                              (Some (newBSPTree Scenario.objA)))
                   Scenario.cameraBelow [] true
  = [] ++ emitted Scenario.position Scenario.cameraBelow true
                  (Some (newBSPTree Scenario.objB)).
Proof.
  apply (failing_node_skips_anchor_and_back
           Scenario.position Scenario.cameraBelow true
           (mkBSPTree Scenario.root (Some (newBSPTree Scenario.objB))
                      (Some (newBSPTree Scenario.objA)))
           Scenario.root (Some (newBSPTree Scenario.objB))
           (Some (newBSPTree Scenario.objA))).
  - apply visited_here; discriminate.
  - right. split; [reflexivity | apply cameraBelow_root_outside].
Defined.

(** ** Insertion *)

Section Insertion.

Variable position : ItemPtr -> vec3.

Lemma dotProduct_dot item anchor :
  dotProduct position item anchor
  = dot (sub (position item) (position anchor)) normal.
Proof. reflexivity. Qed.

Lemma partitionItem_insert t o :
  partitionItem (insert position t o) = partitionItem t.
Proof.
  destruct t as [pItem [f|] [b|]]; simpl;
    destruct (Rltb _ 0); reflexivity.
Qed.

Lemma perm_behind_anchor (B F : list ItemPtr) (p o : ItemPtr) :
  Permutation (B ++ p :: o :: F) (o :: B ++ p :: F).
Proof.
  symmetry.
  change (p :: o :: F) with ([p] ++ o :: F). rewrite app_assoc.
  apply Permutation_cons_app. now rewrite <- app_assoc.
Qed.

(** [insert] links one more node, anchored at the inserted object. *)
Lemma items_insert t :
  forall o, Permutation (items (insert position t o)) (o :: items t).
Proof.
  induction t as [pItem f b IHf IHb] using BSPTree_induction.
  intros o. simpl.
  destruct (Rltb _ 0).
  - destruct b as [b'|]; simpl in *.
    + rewrite (IHb o). reflexivity.
    + reflexivity.
  - destruct f as [f'|]; simpl in *.
    + rewrite (IHf o). apply perm_behind_anchor.
    + apply perm_behind_anchor.
Qed.

Lemma In_items_insert t o item :
  In item (items (insert position t o)) <-> item = o \/ In item (items t).
Proof.
  split; intros H.
  - apply (Permutation_in _ (items_insert t o)) in H. simpl in H.
    destruct H; [left; congruence | now right].
  - apply (Permutation_in _ (Permutation_sym (items_insert t o))).
    simpl. destruct H; [left; congruence | now right].
Qed.

Lemma classified_insert t :
  forall o, classified position t -> classified position (insert position t o).
Proof.
  induction t as [pItem f b IHf IHb] using BSPTree_induction.
  intros o [Hf Hb]. simpl.
  destruct (Rltb (dotProduct position o pItem) 0) eqn:Hside.
  - apply Rltb_spec in Hside. rewrite dotProduct_dot in Hside.
    destruct b as [b'|]; simpl; (split; [exact Hf|]).
    + destruct Hb as [Hall Hcl]. split.
      * intros item Hin. apply In_items_insert in Hin.
        destruct Hin as [-> | Hin]; [assumption | now apply Hall].
      * now apply IHb.
    + split; [|exact (conj I I)].
      intros item [<- | []]. assumption.
  - apply Rltb_nspec in Hside. rewrite dotProduct_dot in Hside.
    destruct f as [f'|]; simpl; (split; [|exact Hb]).
    + destruct Hf as [Hall Hcl]. split.
      * intros item Hin. apply In_items_insert in Hin.
        destruct Hin as [-> | Hin]; [lra | now apply Hall].
      * now apply IHf.
    + split; [|exact (conj I I)].
      intros item [<- | []]. lra.
Qed.

Lemma classified_insertAll objects :
  forall t, classified position t -> classified position (insertAll position t objects).
Proof.
  unfold insertAll.
  induction objects as [|o rest IH]; intros t Ht; simpl; [assumption|].
  apply IH. now apply classified_insert.
Qed.

End Insertion.

(** C7.  In every tree obtained from the construction of a root by any
    sequence of [insert] calls, with the positions the objects had when they
    were inserted, every node [n] has [dot(o.position - n.anchor.position,
    (0,0,1)) >= 0] for each object [o] under its front child and
    [dot(o.position - n.anchor.position, (0,0,1)) < 0] for each object under
    its back child. *)
Theorem insert_only_tree_is_classified
        (position : ItemPtr -> vec3) (rootItem : ItemPtr) (objects : list ItemPtr) :
  classified position (insertAll position (newBSPTree rootItem) objects).
Proof.
  apply classified_insertAll. simpl. tauto.
Qed.

(** ** Removal *)

Lemma items_attachRightmost f b :
  items (attachRightmost f b) = items f ++ items b.
Proof.
  induction f as [pItem ff fb IHf _] using BSPTree_induction. simpl.
  destruct ff as [ff'|]; simpl in *.
  - rewrite IHf. now rewrite <- app_assoc.
  - now rewrite <- app_assoc.
Qed.

Lemma items_mergeSubtrees f b :
  itemsOpt (mergeSubtrees f b) = itemsOpt f ++ itemsOpt b.
Proof.
  destruct f as [f'|], b as [b'|]; simpl; try reflexivity.
  - apply items_attachRightmost.
  - now rewrite app_nil_r.
Qed.

Lemma items_node pItem f b :
  items (mkBSPTree pItem f b) = itemsOpt b ++ pItem :: itemsOpt f.
Proof. reflexivity. Qed.

Lemma items_split t :
  items t = itemsOpt (back t) ++ partitionItem t :: itemsOpt (front t).
Proof. destruct t; reflexivity. Qed.

Section Removal.

Variable position : ItemPtr -> vec3.

Lemma partitionItem_remove t o :
  partitionItem (fst (remove position t o)) = partitionItem t.
Proof.
  destruct t as [pItem f b]. simpl.
  destruct (Rltb _ 0).
  - destruct b as [b'|]; [|reflexivity].
    destruct (Nat.eqb _ o); [reflexivity|].
    destruct (remove position b' o); reflexivity.
  - destruct f as [f'|]; [|reflexivity].
    destruct (Nat.eqb _ o); [reflexivity|].
    destruct (remove position f' o); reflexivity.
Qed.

(** No match on the descent: nothing is written and nothing deleted. *)
Lemma remove_not_found t :
  forall o, onDescent position t o = false -> remove position t o = (t, []).
Proof.
  induction t as [pItem f b IHf IHb] using BSPTree_induction.
  intros o. simpl.
  destruct (Rltb _ 0).
  - destruct b as [b'|]; [|reflexivity]. simpl in IHb.
    intros H. apply orb_false_elim in H as [Hne Hrec].
    rewrite Hne, (IHb o Hrec). reflexivity.
  - destruct f as [f'|]; [|reflexivity]. simpl in IHf.
    intros H. apply orb_false_elim in H as [Hne Hrec].
    rewrite Hne, (IHf o Hrec). reflexivity.
Qed.

End Removal.

(** ** Insertion followed by removal *)

Section RoundTrip.

Variable position : ItemPtr -> vec3.

Lemma In_residents_insert t o item :
  In item (residents (insert position t o)) <-> item = o \/ In item (residents t).
Proof.
  destruct t as [pItem f b]. unfold residents. simpl.
  destruct (Rltb _ 0).
  - destruct b as [b'|]; simpl.
    + rewrite !in_app_iff, In_items_insert. tauto.
    + rewrite ?in_app_iff. simpl. rewrite ?in_app_iff. simpl. intuition congruence.
  - destruct f as [f'|]; simpl.
    + rewrite !in_app_iff, In_items_insert. tauto.
    + rewrite ?in_app_iff. simpl. rewrite ?in_app_iff. simpl. intuition congruence.
Qed.

Lemma In_partitionItem t : In (partitionItem t) (items t).
Proof. rewrite items_split. apply in_elt. Qed.

Lemma residents_child_front pItem f b item :
  In item (items f) -> In item (residents (mkBSPTree pItem (Some f) b)).
Proof. intros H. unfold residents. simpl. apply in_or_app. now right. Qed.

Lemma residents_child_back pItem f b item :
  In item (items b) -> In item (residents (mkBSPTree pItem f (Some b))).
Proof. intros H. unfold residents. simpl. apply in_or_app. now left. Qed.

Lemma residents_in_items t item : In item (residents t) -> In item (items t).
Proof.
  unfold residents. rewrite items_split, !in_app_iff. simpl. tauto.
Qed.

(** An object that is not resident is not met by the descent. *)
Lemma onDescent_resident t :
  forall o, onDescent position t o = true -> In o (residents t).
Proof.
  induction t as [pItem f b IHf IHb] using BSPTree_induction.
  intros o. simpl.
  destruct (Rltb _ 0).
  - destruct b as [b'|]; [|discriminate]. simpl in IHb.
    intros H. apply residents_child_back.
    apply orb_true_iff in H as [H | H].
    + apply Nat.eqb_eq in H. subst o. apply In_partitionItem.
    + apply residents_in_items. now apply IHb.
  - destruct f as [f'|]; [|discriminate]. simpl in IHf.
    intros H. apply residents_child_front.
    apply orb_true_iff in H as [H | H].
    + apply Nat.eqb_eq in H. subst o. apply In_partitionItem.
    + apply residents_in_items. now apply IHf.
Qed.

(** Removing an object right after inserting it undoes the insertion: the
    node found is the new leaf, and the only [delete]s are those of the
    object and of its node. *)
Lemma remove_insert t :
  forall o, ~ In o (residents t) ->
            remove position (insert position t o) o
            = (t, [DeleteItem o; DeleteNode o]).
Proof.
  induction t as [pItem f b IHf IHb] using BSPTree_induction.
  intros o Hfresh. simpl.
  destruct (Rltb (dotProduct position o pItem) 0) eqn:Hside.
  - destruct b as [b'|]; simpl in *; rewrite Hside.
    + rewrite partitionItem_insert.
      assert (Hne : Nat.eqb (partitionItem b') o = false).
      { apply Nat.eqb_neq. intros <-. apply Hfresh.
        apply residents_child_back, In_partitionItem. }
      rewrite Hne, IHb; [reflexivity|].
      intros Hin. apply Hfresh.
      now apply residents_child_back, residents_in_items.
    + rewrite Nat.eqb_refl. reflexivity.
  - destruct f as [f'|]; simpl in *; rewrite Hside.
    + rewrite partitionItem_insert.
      assert (Hne : Nat.eqb (partitionItem f') o = false).
      { apply Nat.eqb_neq. intros <-. apply Hfresh.
        apply residents_child_front, In_partitionItem. }
      rewrite Hne, IHf; [reflexivity|].
      intros Hin. apply Hfresh.
      now apply residents_child_front, residents_in_items.
    + rewrite Nat.eqb_refl. reflexivity.
Qed.

Lemma removeAll_app objects1 :
  forall t objects2,
    removeAll position t (objects1 ++ objects2)
    = let (t1, log1) := removeAll position t objects1 in
      let (t2, log2) := removeAll position t1 objects2 in
      (t2, log1 ++ log2).
Proof.
  induction objects1 as [|o rest IH]; intros t objects2; simpl.
  - destruct (removeAll position t objects2); reflexivity.
  - destruct (remove position t o) as [t1 log1].
    rewrite IH.
    destruct (removeAll position t1 rest) as [t2 log2].
    destruct (removeAll position t2 objects2) as [t3 log3].
    now rewrite app_assoc.
Qed.

Lemma removeAll_insertAll objects :
  forall t,
    NoDup objects ->
    (forall o, In o objects -> ~ In o (residents t)) ->
    removeAll position (insertAll position t objects) (rev objects)
    = (t, leafDeletes (rev objects)).
Proof.
  induction objects as [|o rest IH]; intros t Hnodup Hfresh; simpl.
  - reflexivity.
  - inversion Hnodup as [|? ? Hnotin Hnodup']; subst.
    rewrite removeAll_app.
    change (fold_left (insert position) rest (insert position t o))
      with (insertAll position (insert position t o) rest).
    rewrite IH; [| assumption |].
    + simpl. rewrite remove_insert by (apply Hfresh; now left).
      unfold leafDeletes. rewrite flat_map_app. reflexivity.
    + intros x Hx Hin. apply In_residents_insert in Hin.
      destruct Hin as [-> | Hin]; [contradiction|].
      apply (Hfresh x); [now right | assumption].
Qed.

End RoundTrip.

(** The query on a tree that holds only its root anchor. *)
Lemma query_root_only position rootItem camera checkFrustum :
  getCurrentFrontItems position (newBSPTree rootItem) camera checkFrustum
  = if negb (Nat.eqb rootItem nullptr)
       && (isInFront position camera rootItem
           && isInFrustum position camera checkFrustum rootItem)
    then [rootItem] else [].
Proof.
  unfold getCurrentFrontItems, newBSPTree, isInFront, isInFrustum. simpl.
  destruct (Nat.eqb rootItem nullptr); simpl; [reflexivity|].
  destruct (_ && _); reflexivity.
Qed.

(** C1, as the code behaves.  Starting from a tree that holds only the root
    anchor, inserting N distinct objects and then removing all of them, last
    inserted first, gives back the tree that holds only the root anchor; the
    [delete]s issued are those of the N objects and of their N nodes; and
    for every camera, with and without the frustum filter, the query then
    reports no inserted object: it returns the root anchor alone when that
    anchor is non-null, in front of the camera and passes the frustum test
    (or the filter is off), and the empty list otherwise. *)
Theorem insert_then_remove_in_reverse
        (position : ItemPtr -> vec3) (rootItem : ItemPtr)
        (objects : list ItemPtr) :
  NoDup objects ->
  let built := insertAll position (newBSPTree rootItem) objects in
  removeAll position built (rev objects)
  = (newBSPTree rootItem, leafDeletes (rev objects))
  /\ forall camera checkFrustum,
      getCurrentFrontItems position
                           (fst (removeAll position built (rev objects)))
                           camera checkFrustum
      = if negb (Nat.eqb rootItem nullptr)
           && (isInFront position camera rootItem
               && isInFrustum position camera checkFrustum rootItem)
        then [rootItem] else [].
Proof.
  intros Hnodup built.
  assert (Hround : removeAll position built (rev objects)
                   = (newBSPTree rootItem, leafDeletes (rev objects))).
  { apply removeAll_insertAll; [assumption|]. intros o _ []. }
  split; [exact Hround|].
  intros camera checkFrustum. rewrite Hround. apply query_root_only.
Qed.

Lemma insert_then_remove_in_reverse_witness :
  removeAll Scenario.position
            (insertAll Scenario.position (newBSPTree Scenario.root)
                       [Scenario.objA; Scenario.objC; Scenario.objD])
            (rev [Scenario.objA; Scenario.objC; Scenario.objD])
  = (newBSPTree Scenario.root,
     leafDeletes (rev [Scenario.objA; Scenario.objC; Scenario.objD])).
Proof.
  apply (insert_then_remove_in_reverse
           Scenario.position Scenario.root
           [Scenario.objA; Scenario.objC; Scenario.objD]).
  repeat constructor; simpl; intuition discriminate.
Defined.

Lemma scenario_bushy :
  Scenario.bushy
  = mkBSPTree Scenario.root None
              (Some (mkBSPTree Scenario.objA
                               (Some (newBSPTree Scenario.objC))
                               (Some (newBSPTree Scenario.objD)))).
Proof.
  unfold Scenario.bushy, insertAll, newBSPTree. simpl.
  repeat (Rcompare; simpl). reflexivity.
Qed.

(** Removing [objA], whose node has both children, from [Scenario.bushy]:
    the pointer structure and the [delete] statements of [detach].  The
    [delete]s of [objD] and of its node occur twice. *)
Lemma scenario_bushy_remove :
  remove Scenario.position Scenario.bushy Scenario.objA
  = (mkBSPTree Scenario.root None
               (Some (mkBSPTree Scenario.objC (Some (newBSPTree Scenario.objD))
                                None)),
     [ DeleteItem Scenario.objA;
       DeleteItem Scenario.objC; DeleteItem Scenario.objD;
       DeleteNode Scenario.objD; DeleteNode Scenario.objC;
       DeleteItem Scenario.objD; DeleteNode Scenario.objD;
       DeleteNode Scenario.objA ]).
Proof.
  rewrite scenario_bushy. unfold newBSPTree. simpl.
  repeat (Rcompare; simpl). reflexivity.
Qed.

(** Removing the three objects of [Scenario.bushy] in the order [objA],
    [objD], [objC] leaves [objD] linked: once the node of [objD] hangs in
    front of [objC], the descent for [objD] turns to the back of [objC]. *)
Lemma scenario_bushy_removeAll :
  fst (removeAll Scenario.position Scenario.bushy
                 [Scenario.objA; Scenario.objD; Scenario.objC])
  = mkBSPTree Scenario.root None (Some (newBSPTree Scenario.objD)).
Proof.
  unfold removeAll. rewrite scenario_bushy_remove.
  unfold newBSPTree. simpl. repeat (Rcompare; simpl). reflexivity.
Qed.

(** C1 as stated fails.  After one object is inserted and removed, the query
    still returns the root anchor for a camera that sees it; and after the
    three objects of [Scenario.bushy] are removed in the order [objA],
    [objD], [objC], the query returns [objD] as well. *)
Lemma round_trip_query_not_empty :
  getCurrentFrontItems
    Scenario.position
    (fst (removeAll Scenario.position
                    (insertAll Scenario.position (newBSPTree Scenario.root)
                               [Scenario.objA])
                    [Scenario.objA]))
    Scenario.camera false
  = [Scenario.root]
  /\ getCurrentFrontItems
       Scenario.position
       (fst (removeAll Scenario.position
                       (insertAll Scenario.position (newBSPTree Scenario.root)
                                  [Scenario.objA; Scenario.objC; Scenario.objD])
                       [Scenario.objA; Scenario.objD; Scenario.objC]))
       Scenario.camera false
     = [Scenario.objD; Scenario.root].
Proof.
  split.
  - change [Scenario.objA] with (rev [Scenario.objA]) at 2.
    rewrite removeAll_insertAll;
      [| repeat constructor; simpl; tauto | intros o _ []].
    simpl fst. rewrite query_root_only.
    unfold isInFront, isInFrustum, Rgtb. Rcompare. reflexivity.
  - fold Scenario.bushy. rewrite scenario_bushy_removeAll.
    unfold getCurrentFrontItems, newBSPTree. simpl.
    unfold Rgtb. repeat (Rcompare; simpl). reflexivity.
Qed.

(** C6 as stated fails.  Removing [objA] from [Scenario.bushy] does not hand
    [objA] back, the partition deletes it; and the node of [objA] is not the
    only one destroyed: the node of [objC], still linked after the call, is
    deleted as well. *)
Lemma remove_deletes_the_anchor :
  In (DeleteItem Scenario.objA)
     (snd (remove Scenario.position Scenario.bushy Scenario.objA))
  /\ In (DeleteNode Scenario.objC)
        (snd (remove Scenario.position Scenario.bushy Scenario.objA))
  /\ In Scenario.objC
        (items (fst (remove Scenario.position Scenario.bushy Scenario.objA))).
Proof.
  rewrite scenario_bushy_remove. simpl. intuition.
Qed.

Lemma scenario_twins :
  Scenario.twins
  = mkBSPTree Scenario.root
              (Some (mkBSPTree Scenario.objB (Some (newBSPTree Scenario.objE))
                               None))
              None.
Proof.
  unfold Scenario.twins, insertAll, newBSPTree. simpl.
  repeat (Rcompare; simpl). reflexivity.
Qed.

(** C8, at the input where the code departs from it.  In [Scenario.twins]
    the objects [objB] and [objE] are distinct and have the same position,
    and both are resident; [objE] hangs in front of [objB].  [remove(objB)]
    matches the node of [objB] by address, and the same call also deletes
    [objE] and the node of [objE]: a distinct resident object at the
    position of the removed one does not survive the call. *)
Theorem remove_of_a_twin_deletes_the_other :
  Scenario.objE <> Scenario.objB
  /\ Scenario.position Scenario.objE = Scenario.position Scenario.objB
  /\ In Scenario.objB (residents Scenario.twins)
  /\ In Scenario.objE (residents Scenario.twins)
  /\ foundNode Scenario.position Scenario.twins Scenario.objB
     = Some (mkBSPTree Scenario.objB (Some (newBSPTree Scenario.objE)) None)
  /\ snd (remove Scenario.position Scenario.twins Scenario.objB)
     = [ DeleteItem Scenario.objB;
         DeleteItem Scenario.objE; DeleteNode Scenario.objE;
         DeleteNode Scenario.objB ].
Proof.
  split; [discriminate|]. split; [reflexivity|].
  rewrite scenario_twins. unfold residents, newBSPTree. simpl.
  split; [tauto|]. split; [tauto|].
  repeat (Rcompare; simpl). split; reflexivity.
Qed.

(** ** Level of detail *)

Lemma drawMesh_not_nil mesh useDrawArrays : drawMesh mesh useDrawArrays <> [].
Proof. unfold drawMesh. discriminate. Qed.

Lemma drawMesh_vao mesh1 mesh2 useDrawArrays :
  drawMesh mesh1 useDrawArrays = drawMesh mesh2 useDrawArrays ->
  vao mesh1 = vao mesh2.
Proof. unfold drawMesh. intros H. now injection H. Qed.

(** C5, as the code behaves.  With [d] the distance from the camera to the
    part, the draw step issues the calls of its high-detail argument when
    [d < 8], those of its low-detail argument when [8 <= d <= 19], and no
    call when [d > 19].  It issues no call only when [d > 19]; the calls of
    the high-detail argument tell that [d < 8], and those of the low-detail
    argument that [8 <= d <= 19], when the two arguments are different
    vertex arrays.  In particular [d = 7.999] selects the high-detail mesh,
    [d = 8] and [d = 19] the low-detail mesh, and [d = 19.001] none. *)
Theorem lod_selection_by_distance
        (camera : Camera) (highMesh lowMesh : GLMesh) (translationVec : vec3)
        (useDrawArrays : bool) :
  let d := calculateDistance camera translationVec in
  let calls :=
    drawMeshBasedOnDistance camera highMesh lowMesh translationVec useDrawArrays in
  ((d < 8 -> calls = drawMesh highMesh useDrawArrays)
   /\ (8 <= d <= 19 -> calls = drawMesh lowMesh useDrawArrays)
   /\ (d > 19 -> calls = []))
  /\ ((calls = [] -> d > 19)
      /\ (vao highMesh <> vao lowMesh ->
          (calls = drawMesh highMesh useDrawArrays -> d < 8)
          /\ (calls = drawMesh lowMesh useDrawArrays -> 8 <= d <= 19)))
  /\ ((d = 7999 / 1000 -> calls = drawMesh highMesh useDrawArrays)
      /\ (d = 8 -> calls = drawMesh lowMesh useDrawArrays)
      /\ (d = 19 -> calls = drawMesh lowMesh useDrawArrays)
      /\ (d = 19001 / 1000 -> calls = [])).
Proof.
  intros d calls.
  assert (Hhigh : d < 8 -> calls = drawMesh highMesh useDrawArrays).
  { intros H. unfold calls, drawMeshBasedOnDistance. fold d.
    now rewrite Rltb_true. }
  assert (Hlow : 8 <= d <= 19 -> calls = drawMesh lowMesh useDrawArrays).
  { intros [H1 H2]. unfold calls, drawMeshBasedOnDistance. fold d.
    now rewrite Rltb_false, Rleb_true. }
  assert (Hnone : d > 19 -> calls = []).
  { intros H. unfold calls, drawMeshBasedOnDistance. fold d.
    rewrite Rltb_false, Rleb_false by lra. reflexivity. }
  split; [tauto|]. split; [split|].
  - intros Hnil.
    destruct (Rlt_dec d 8) as [H8|H8].
    { rewrite (Hhigh H8) in Hnil. now apply drawMesh_not_nil in Hnil. }
    destruct (Rle_dec d 19) as [H19|H19]; [|lra].
    rewrite Hlow in Hnil by lra. now apply drawMesh_not_nil in Hnil.
  - intros Hdiff. split; intros Hcalls.
    + destruct (Rlt_dec d 8) as [H8|H8]; [assumption|].
      destruct (Rle_dec d 19) as [H19|H19].
      * rewrite Hlow in Hcalls by lra.
        apply drawMesh_vao in Hcalls. congruence.
      * rewrite Hnone in Hcalls by lra.
        symmetry in Hcalls. now apply drawMesh_not_nil in Hcalls.
    + destruct (Rlt_dec d 8) as [H8|H8].
      * rewrite (Hhigh H8) in Hcalls.
        apply drawMesh_vao in Hcalls. congruence.
      * destruct (Rle_dec d 19) as [H19|H19]; [lra|].
        rewrite Hnone in Hcalls by lra.
        symmetry in Hcalls. now apply drawMesh_not_nil in Hcalls.
  - repeat split; intros Hd.
    + apply Hhigh; lra.
    + apply Hlow; lra.
    + apply Hlow; lra.
    + apply Hnone; lra.
Qed.

(** The distance from a camera at the origin to a point of the positive x
    axis. *)
Lemma calculateDistance_x_axis (front up : vec3) (fov a : R) :
  0 <= a ->
  calculateDistance (mkCamera (mkvec3 0 0 0) front up fov) (mkvec3 a 0 0) = a.
Proof.
  intros Ha. unfold calculateDistance. vec_unfold.
  replace ((0 - a) * (0 - a) + (0 - 0) * (0 - 0) + (0 - 0) * (0 - 0))
    with (a * a) by ring.
  now apply sqrt_square.
Qed.

Lemma lod_selection_by_distance_witness :
  drawMeshBasedOnDistance Scenario.cameraOrigin Scenario.highMesh
                          Scenario.lowMesh (mkvec3 (7999 / 1000) 0 0) true
  = [glBindVertexArray 1; glDrawArrays 36]
  /\ drawMeshBasedOnDistance Scenario.cameraOrigin Scenario.highMesh
                             Scenario.lowMesh (mkvec3 8 0 0) true
     = [glBindVertexArray 2; glDrawArrays 12]
  /\ drawMeshBasedOnDistance Scenario.cameraOrigin Scenario.highMesh
                             Scenario.lowMesh (mkvec3 19 0 0) false
     = [glBindVertexArray 2; glDrawElements 12]
  /\ drawMeshBasedOnDistance Scenario.cameraOrigin Scenario.highMesh
                             Scenario.lowMesh (mkvec3 (19001 / 1000) 0 0) false
     = [].
Proof.
  split; [|split; [|split]].
  - destruct (lod_selection_by_distance
                Scenario.cameraOrigin Scenario.highMesh Scenario.lowMesh
                (mkvec3 (7999 / 1000) 0 0) true)
      as (_ & _ & H & _).
    apply H. apply calculateDistance_x_axis. lra.
  - destruct (lod_selection_by_distance
                Scenario.cameraOrigin Scenario.highMesh Scenario.lowMesh
                (mkvec3 8 0 0) true)
      as (_ & _ & _ & H & _).
    apply H. apply calculateDistance_x_axis. lra.
  - destruct (lod_selection_by_distance
                Scenario.cameraOrigin Scenario.highMesh Scenario.lowMesh
                (mkvec3 19 0 0) false)
      as (_ & _ & _ & _ & H & _).
    apply H. apply calculateDistance_x_axis. lra.
  - destruct (lod_selection_by_distance
                Scenario.cameraOrigin Scenario.highMesh Scenario.lowMesh
                (mkvec3 (19001 / 1000) 0 0) false)
      as (_ & _ & _ & _ & _ & H).
    apply H. apply calculateDistance_x_axis. lra.
Defined.

(** C5 as stated fails.  The render functions of the table top, the drink
    box and others pass one mesh as both arguments; at distance 10 the calls
    issued are then those of the high-detail argument, although the distance
    is not below 8. *)
Lemma same_mesh_drawn_beyond_the_near_threshold :
  calculateDistance Scenario.cameraOrigin (mkvec3 10 0 0) = 10
  /\ drawMeshBasedOnDistance Scenario.cameraOrigin Scenario.highMesh
                             Scenario.highMesh (mkvec3 10 0 0) false
     = drawMesh Scenario.highMesh false
  /\ ~ calculateDistance Scenario.cameraOrigin (mkvec3 10 0 0) < 8.
Proof.
  assert (Hd : calculateDistance Scenario.cameraOrigin (mkvec3 10 0 0) = 10)
    by (apply calculateDistance_x_axis; lra).
  split; [exact Hd|]. split.
  - unfold drawMeshBasedOnDistance. rewrite Hd.
    rewrite Rltb_false, Rleb_true by lra. reflexivity.
  - rewrite Hd. lra.
Qed.

(** ** One frame *)

(** The query only returns anchors linked in the tree. *)
Lemma getAllFrontItems_linked position camera checkFrustum t :
  forall item,
    In item (getAllFrontItems position t camera [] checkFrustum) ->
    In item (items t).
Proof.
  induction t as [pItem f b IHf IHb] using BSPTree_induction.
  intros item. rewrite items_node.
  destruct (Nat.eq_dec pItem nullptr) as [Hnull | Hnull].
  - simpl. apply Nat.eqb_eq in Hnull. rewrite Hnull. intros [].
  - destruct (isInFront position camera pItem
              && isInFrustum position camera checkFrustum pItem) eqn:Hpass.
    + rewrite getAllFrontItems_pass by assumption. simpl.
      rewrite !in_app_iff. simpl.
      intros [Hin | [Heq | Hin]].
      * left. destruct b as [b'|]; [now apply IHb | destruct Hin].
      * right. now left.
      * right. right. destruct f as [f'|]; [now apply IHf | destruct Hin].
    + rewrite getAllFrontItems_fail by assumption. simpl.
      rewrite !in_app_iff. simpl. intros Hin.
      right. right. destruct f as [f'|]; [now apply IHf | destruct Hin].
Qed.

Lemma newAddress_fresh live : ~ In (newAddress live) live.
Proof.
  unfold newAddress. intros Hin.
  assert (Hle : Forall (fun k => (k <= list_max live)%nat) live)
    by now apply list_max_le.
  rewrite Forall_forall in Hle. apply Hle in Hin. lia.
Qed.

Lemma renderCalls_app events1 events2 :
  renderCalls (events1 ++ events2) = renderCalls events1 ++ renderCalls events2.
Proof.
  induction events1 as [|e rest IH]; simpl; [reflexivity|].
  destruct e; simpl; now rewrite IH.
Qed.

Lemma renderCalls_renderItem isFireFly deltaTime visible :
  renderCalls (flat_map (renderItem isFireFly deltaTime) visible) = visible.
Proof.
  induction visible as [|item rest IH]; simpl; [reflexivity|].
  destruct (isFireFly item); simpl; now rewrite IH.
Qed.

(** C10.  For every camera and both values of [checkFrustum], a frame
    renders the items of the query, in order, and then one more object: a
    [Walls] constructed in the frame, whose address is that of no object
    linked in the partition and is not in the queried list. *)
Theorem renderScene_also_renders_new_walls
        (position : ItemPtr -> vec3) (isFireFly : ItemPtr -> bool)
        (live : list ItemPtr) (bsptree : BSPTree) (camera : Camera)
        (deltaTime : R) (checkFrustum : bool) :
  (forall item, In item (items bsptree) -> In item live) ->
  let visibleItems := getCurrentFrontItems position bsptree camera checkFrustum in
  let events :=
    fst (renderScene position isFireFly live bsptree camera deltaTime checkFrustum) in
  exists walls,
    renderCalls events = visibleItems ++ [walls]
    /\ In (NewWalls walls) events
    /\ ~ In walls (items bsptree)
    /\ ~ In walls visibleItems
    /\ (forall before after,
           events = before ++ NewWalls walls :: after -> after = [Render walls]).
Proof.
  intros Hlive visibleItems events.
  exists (newAddress live).
  assert (Hnot : ~ In (newAddress live) (items bsptree)).
  { intros Hin. exact (newAddress_fresh live (Hlive _ Hin)). }
  unfold events, renderScene. simpl fst. fold visibleItems.
  split; [|split; [|split; [|split]]].
  - rewrite renderCalls_app, renderCalls_renderItem. reflexivity.
  - apply in_or_app. right. now left.
  - exact Hnot.
  - intros Hin. apply Hnot.
    now apply getAllFrontItems_linked
      with (position := position) (camera := camera) (checkFrustum := checkFrustum).
  - intros before after Heq.
    assert (Hno : ~ In (NewWalls (newAddress live))
                       (flat_map (renderItem isFireFly deltaTime) visibleItems)).
    { intros Hin. apply in_flat_map in Hin as (item & _ & Hin).
      unfold renderItem in Hin. destruct (isFireFly item); simpl in Hin;
        intuition discriminate. }
    revert Hno Heq.
    generalize (flat_map (renderItem isFireFly deltaTime) visibleItems) as prefix.
    intros prefix. revert before.
    induction prefix as [|e rest IH]; intros before Hno Heq.
    + destruct before as [|e1 before]; simpl in Heq.
      * now injection Heq as <-.
      * injection Heq as _ Heq.
        destruct before as [|e2 before]; simpl in Heq.
        -- discriminate Heq.
        -- injection Heq as _ Heq. now destruct before.
    + destruct before as [|e1 before]; simpl in Heq.
      * injection Heq as He _. exfalso. apply Hno. left. exact He.
      * injection Heq as _ Heq. apply (IH before); [|exact Heq].
        intros Hin. apply Hno. now right.
Qed.

Lemma renderScene_also_renders_new_walls_witness :
  exists walls,
    renderCalls
      (fst (renderScene Scenario.position (fun item => Nat.eqb item Scenario.objB)
                        [Scenario.root; Scenario.objA; Scenario.objB]
                        (mkBSPTree Scenario.root
                                   (Some (newBSPTree Scenario.objB))
                                   (Some (newBSPTree Scenario.objA)))
                        Scenario.camera (1 / 60) true))
    = getCurrentFrontItems Scenario.position
                           (mkBSPTree Scenario.root
                                      (Some (newBSPTree Scenario.objB))
                                      (Some (newBSPTree Scenario.objA)))
                           Scenario.camera true
      ++ [walls].
Proof.
  destruct (renderScene_also_renders_new_walls
              Scenario.position (fun item => Nat.eqb item Scenario.objB)
              [Scenario.root; Scenario.objA; Scenario.objB]
              (mkBSPTree Scenario.root
                         (Some (newBSPTree Scenario.objB))
                         (Some (newBSPTree Scenario.objA)))
              Scenario.camera (1 / 60) true) as (walls & H & _).
  - simpl. intuition.
  - exists walls. exact H.
Defined.

(** * Further properties of the code *)

(** ** The tree: insertion, merging, teardown *)

(** X1.  [insert] links exactly one more node, anchored at the inserted
    object, and never replaces the root anchor. *)
Theorem insert_links_one_node
        (position : ItemPtr -> vec3) (t : BSPTree) (o : ItemPtr) :
  partitionItem (insert position t o) = partitionItem t
  /\ Permutation (items (insert position t o)) (o :: items t)
  /\ Permutation (residents (insert position t o)) (o :: residents t).
Proof.
  split; [apply partitionItem_insert|].
  split; [apply items_insert|].
  pose proof (items_insert position t o) as Hperm.
  rewrite (items_split (insert position t o)), partitionItem_insert in Hperm.
  rewrite (items_split t) in Hperm.
  unfold residents.
  apply Permutation_cons_inv with (a := partitionItem t).
  rewrite Permutation_middle, Hperm.
  rewrite perm_swap. apply perm_skip.
  symmetry. apply Permutation_middle.
Qed.

Lemma dotProduct_z position item anchor :
  dotProduct position item anchor
  = z (position item) - z (position anchor).
Proof. unfold dotProduct, normal. simpl. ring. Qed.

Lemma dotProduct_same_z position position' :
  (forall item, z (position item) = z (position' item)) ->
  forall item anchor,
    dotProduct position item anchor = dotProduct position' item anchor.
Proof. intros Hz item anchor. now rewrite !dotProduct_z, !Hz. Qed.

Lemma insert_same_z position position' :
  (forall item, z (position item) = z (position' item)) ->
  forall t o, insert position t o = insert position' t o.
Proof.
  intros Hz t.
  induction t as [pItem f b IHf IHb] using BSPTree_induction.
  intros o. simpl. rewrite (dotProduct_same_z position position' Hz).
  destruct (Rltb _ 0).
  - destruct b as [b'|]; simpl in *; [now rewrite IHb | reflexivity].
  - destruct f as [f'|]; simpl in *; [now rewrite IHf | reflexivity].
Qed.

Lemma remove_same_z position position' :
  (forall item, z (position item) = z (position' item)) ->
  forall t o, remove position t o = remove position' t o.
Proof.
  intros Hz t.
  induction t as [pItem f b IHf IHb] using BSPTree_induction.
  intros o. simpl. rewrite (dotProduct_same_z position position' Hz).
  destruct (Rltb _ 0).
  - destruct b as [b'|]; simpl in *; [now rewrite IHb | reflexivity].
  - destruct f as [f'|]; simpl in *; [now rewrite IHf | reflexivity].
Qed.

Lemma classified_same_z position position' :
  (forall item, z (position item) = z (position' item)) ->
  forall t, classified position t -> classified position' t.
Proof.
  intros Hz t.
  induction t as [pItem f b IHf IHb] using BSPTree_induction.
  intros [Hf Hb]. simpl. split.
  - destruct f as [f'|]; [|exact I]. destruct Hf as [Hall Hcl]. split.
    + intros o Hin. specialize (Hall o Hin).
      rewrite <- dotProduct_dot, dotProduct_z in *. now rewrite <- !Hz.
    + now apply IHf.
  - destruct b as [b'|]; [|exact I]. destruct Hb as [Hall Hcl]. split.
    + intros o Hin. specialize (Hall o Hin).
      rewrite <- dotProduct_dot, dotProduct_z in *. now rewrite <- !Hz.
    + now apply IHb.
Qed.

(** X2.  The partition only looks at z coordinates: with two stores of
    positions that agree on every object's z, [insert] and [remove] build
    the same trees and issue the same [delete]s, and a tree is classified
    for the one store exactly when it is for the other. *)
Theorem partition_reads_z_only
        (position position' : ItemPtr -> vec3) (t : BSPTree) (o : ItemPtr) :
  (forall item, z (position item) = z (position' item)) ->
  insert position t o = insert position' t o
  /\ remove position t o = remove position' t o
  /\ (classified position t <-> classified position' t).
Proof.
  intros Hz. split; [now apply insert_same_z|].
  split; [now apply remove_same_z|].
  split; apply classified_same_z; [assumption | intros item; symmetry; apply Hz].
Qed.

Lemma partition_reads_z_only_witness :
  insert Scenario.position Scenario.tree Scenario.objC
  = insert Fixtures.shifted Scenario.tree Scenario.objC.
Proof.
  apply (partition_reads_z_only Scenario.position Fixtures.shifted
                                Scenario.tree Scenario.objC).
  intros item. unfold Fixtures.shifted. simpl. lra.
Defined.

(** X3.  [mergeSubtrees] loses no node and keeps the order: the in-order
    sequence of the merged subtree is that of the front subtree followed by
    that of the back subtree; an empty argument gives back the other one;
    and when the front subtree is not empty its root is the root of the
    result. *)
Theorem mergeSubtrees_concatenates (f b : option BSPTree) :
  itemsOpt (mergeSubtrees f b) = itemsOpt f ++ itemsOpt b
  /\ mergeSubtrees None b = b
  /\ mergeSubtrees f None = f
  /\ (forall f', f = Some f' ->
                 exists m, mergeSubtrees f b = Some m
                           /\ partitionItem m = partitionItem f'
                           /\ back m = back f').
Proof.
  split; [apply items_mergeSubtrees|].
  split; [reflexivity|].
  split; [now destruct f|].
  intros f' ->. destruct b as [b'|]; simpl.
  - exists (attachRightmost f' b'). split; [reflexivity|].
    destruct f' as [p [ff|] fb]; simpl; split; reflexivity.
  - exists f'. repeat split.
Qed.

(** X4.  Removing an object right after inserting it, when it was not
    resident before, gives back the tree as it was, and the only [delete]s
    are those of the object and of its node. *)
Theorem remove_undoes_insert
        (position : ItemPtr -> vec3) (t : BSPTree) (o : ItemPtr) :
  ~ In o (residents t) ->
  remove position (insert position t o) o = (t, [DeleteItem o; DeleteNode o]).
Proof. apply remove_insert. Qed.

Lemma remove_undoes_insert_witness :
  remove Scenario.position
         (insert Scenario.position
                 (mkBSPTree Scenario.root (Some (newBSPTree Scenario.objB))
                            (Some (newBSPTree Scenario.objA)))
                 Scenario.objC)
         Scenario.objC
  = (mkBSPTree Scenario.root (Some (newBSPTree Scenario.objB))
               (Some (newBSPTree Scenario.objA)),
     [DeleteItem Scenario.objC; DeleteNode Scenario.objC]).
Proof.
  apply (remove_undoes_insert Scenario.position).
  unfold residents. simpl. intuition discriminate.
Defined.

Lemma deletedItems_app log1 log2 :
  deletedItems (log1 ++ log2) = deletedItems log1 ++ deletedItems log2.
Proof.
  induction log1 as [|e rest IH]; simpl; [reflexivity|].
  destruct e; simpl; now rewrite IH.
Qed.

Lemma deletedNodes_app log1 log2 :
  deletedNodes (log1 ++ log2) = deletedNodes log1 ++ deletedNodes log2.
Proof.
  induction log1 as [|e rest IH]; simpl; [reflexivity|].
  destruct e; simpl; now rewrite IH.
Qed.

Lemma items_residents t :
  Permutation (items t) (partitionItem t :: residents t).
Proof.
  rewrite items_split. unfold residents. symmetry. apply Permutation_middle.
Qed.

Lemma destructor_deletes t :
  Permutation (deletedItems (destructor t)) (residents t)
  /\ Permutation (deletedNodes (destructor t)) (residents t).
Proof.
  induction t as [pItem f b IHf IHb] using BSPTree_induction.
  unfold residents. simpl.
  rewrite deletedItems_app, deletedNodes_app.
  assert (Hf : Permutation
                 (deletedItems
                    match f with
                    | Some f' => DeleteItem (partitionItem f') :: destructor f'
                                   ++ [DeleteNode (partitionItem f')]
                    | None => []
                    end) (itemsOpt f)
               /\ Permutation
                    (deletedNodes
                       match f with
                       | Some f' => DeleteItem (partitionItem f') :: destructor f'
                                      ++ [DeleteNode (partitionItem f')]
                       | None => []
                       end) (itemsOpt f)).
  { destruct f as [f'|]; simpl in *; [|split; constructor].
    rewrite deletedItems_app, deletedNodes_app. simpl.
    rewrite app_nil_r. destruct IHf as [IH1 IH2]. split.
    - rewrite (items_residents f'). now apply perm_skip.
    - rewrite (items_residents f'), <- IH2.
      symmetry. apply Permutation_cons_append. }
  assert (Hb : Permutation
                 (deletedItems
                    match b with
                    | Some b' => DeleteItem (partitionItem b') :: destructor b'
                                   ++ [DeleteNode (partitionItem b')]
                    | None => []
                    end) (itemsOpt b)
               /\ Permutation
                    (deletedNodes
                       match b with
                       | Some b' => DeleteItem (partitionItem b') :: destructor b'
                                      ++ [DeleteNode (partitionItem b')]
                       | None => []
                       end) (itemsOpt b)).
  { destruct b as [b'|]; simpl in *; [|split; constructor].
    rewrite deletedItems_app, deletedNodes_app. simpl.
    rewrite app_nil_r. destruct IHb as [IH1 IH2]. split.
    - rewrite (items_residents b'). now apply perm_skip.
    - rewrite (items_residents b'), <- IH2.
      symmetry. apply Permutation_cons_append. }
  destruct Hf as [Hf1 Hf2], Hb as [Hb1 Hb2]. split.
  - rewrite Hf1, Hb1. apply Permutation_app_comm.
  - rewrite Hf2, Hb2. apply Permutation_app_comm.
Qed.

(** X5.  The destructor of a tree deletes each object anchored below the
    root once, and each node below the root once; it does not delete the
    root's own anchor (unless that object is also anchored below). *)
Theorem destructor_deletes_the_residents (t : BSPTree) :
  Permutation (deletedItems (destructor t)) (residents t)
  /\ Permutation (deletedNodes (destructor t)) (residents t)
  /\ (~ In (partitionItem t) (residents t) ->
      ~ In (DeleteItem (partitionItem t)) (destructor t)).
Proof.
  destruct (destructor_deletes t) as [H1 H2].
  split; [exact H1|]. split; [exact H2|].
  intros Hroot Hin. apply Hroot.
  apply (Permutation_in _ H1).
  clear - Hin. induction (destructor t) as [|e rest IH]; [destruct Hin|].
  destruct Hin as [-> | Hin]; simpl.
  - now left.
  - destruct e; simpl; [right|]; now apply IH.
Qed.

Lemma destructor_deletes_the_residents_witness :
  ~ In (DeleteItem Scenario.root)
       (destructor (mkBSPTree Scenario.root (Some (newBSPTree Scenario.objB))
                              (Some (newBSPTree Scenario.objA)))).
Proof.
  apply (destructor_deletes_the_residents
           (mkBSPTree Scenario.root (Some (newBSPTree Scenario.objB))
                      (Some (newBSPTree Scenario.objA)))).
  unfold residents. simpl. intuition discriminate.
Defined.

(** ** Removal: the matched node *)


(** The tree [remove] returns, one level at a time. *)
Lemma remove_back_match position pItem f b o :
  Rltb (dotProduct position o pItem) 0 = true ->
  Nat.eqb (partitionItem b) o = true ->
  remove position (mkBSPTree pItem f (Some b)) o
  = (mkBSPTree pItem f (mergeSubtrees (front b) (back b)), snd (detach b)).
Proof. intros Hside Heq. simpl. now rewrite Hside, Heq. Qed.

Lemma remove_back_descend position pItem f b o :
  Rltb (dotProduct position o pItem) 0 = true ->
  Nat.eqb (partitionItem b) o = false ->
  remove position (mkBSPTree pItem f (Some b)) o
  = (mkBSPTree pItem f (Some (fst (remove position b o))),
     snd (remove position b o)).
Proof.
  intros Hside Heq. simpl. rewrite Hside, Heq.
  now destruct (remove position b o).
Qed.

Lemma remove_front_match position pItem f b o :
  Rltb (dotProduct position o pItem) 0 = false ->
  Nat.eqb (partitionItem f) o = true ->
  remove position (mkBSPTree pItem (Some f) b) o
  = (mkBSPTree pItem (mergeSubtrees (front f) (back f)) b, snd (detach f)).
Proof. intros Hside Heq. simpl. now rewrite Hside, Heq. Qed.

Lemma remove_front_descend position pItem f b o :
  Rltb (dotProduct position o pItem) 0 = false ->
  Nat.eqb (partitionItem f) o = false ->
  remove position (mkBSPTree pItem (Some f) b) o
  = (mkBSPTree pItem (Some (fst (remove position f o))) b,
     snd (remove position f o)).
Proof.
  intros Hside Heq. simpl. rewrite Hside, Heq.
  now destruct (remove position f o).
Qed.

(** A property of the subtree that takes the place of the matched node, and
    of the log, carries over to the whole tree if it is kept by every
    ancestor on the way up. *)
Section AtMatch.

Variable position : ItemPtr -> vec3.
Variable o : ItemPtr.
Variable n : BSPTree.
Variable P : BSPTree -> list MemEvent -> Prop.

Hypothesis P_back_match :
  forall pItem f,
    Rltb (dotProduct position o pItem) 0 = true ->
    P (mkBSPTree pItem f (mergeSubtrees (front n) (back n))) (snd (detach n)).
Hypothesis P_front_match :
  forall pItem b,
    Rltb (dotProduct position o pItem) 0 = false ->
    P (mkBSPTree pItem (mergeSubtrees (front n) (back n)) b) (snd (detach n)).
Hypothesis P_back_up :
  forall pItem f b' log, P b' log -> P (mkBSPTree pItem f (Some b')) log.
Hypothesis P_front_up :
  forall pItem f' b log, P f' log -> P (mkBSPTree pItem (Some f') b) log.

Lemma remove_at_match t :
  foundNode position t o = Some n ->
  P (fst (remove position t o)) (snd (remove position t o)).
Proof.
  induction t as [pItem f b IHf IHb] using BSPTree_induction.
  simpl foundNode.
  destruct (Rltb (dotProduct position o pItem) 0) eqn:Hside.
  - destruct b as [b'|]; [|discriminate]. simpl in IHb.
    destruct (Nat.eqb (partitionItem b') o) eqn:Heq.
    + intros [= ->]. rewrite remove_back_match by assumption. simpl fst.
      simpl snd. now apply P_back_match.
    + intros Hn. rewrite remove_back_descend by assumption. simpl fst.
      simpl snd. apply P_back_up. now apply IHb.
  - destruct f as [f'|]; [|discriminate]. simpl in IHf.
    destruct (Nat.eqb (partitionItem f') o) eqn:Heq.
    + intros [= ->]. rewrite remove_front_match by assumption. simpl fst.
      simpl snd. now apply P_front_match.
    + intros Hn. rewrite remove_front_descend by assumption. simpl fst.
      simpl snd. apply P_front_up. now apply IHf.
Qed.

End AtMatch.

Lemma foundNode_anchor position t :
  forall o n, foundNode position t o = Some n -> partitionItem n = o.
Proof.
  induction t as [pItem f b IHf IHb] using BSPTree_induction.
  intros o n. simpl.
  destruct (Rltb _ 0).
  - destruct b as [b'|]; [|discriminate]. simpl in IHb.
    destruct (Nat.eqb (partitionItem b') o) eqn:Heq.
    + intros [= <-]. now apply Nat.eqb_eq.
    + apply IHb.
  - destruct f as [f'|]; [|discriminate]. simpl in IHf.
    destruct (Nat.eqb (partitionItem f') o) eqn:Heq.
    + intros [= <-]. now apply Nat.eqb_eq.
    + apply IHf.
Qed.

(** The descent meets a node anchored at [o] exactly when [foundNode]
    gives one. *)
Lemma onDescent_foundNode position t :
  forall o, onDescent position t o = true
            <-> exists n, foundNode position t o = Some n.
Proof.
  induction t as [pItem f b IHf IHb] using BSPTree_induction.
  intros o. simpl.
  destruct (Rltb _ 0).
  - destruct b as [b'|]; simpl in IHb.
    + destruct (Nat.eqb (partitionItem b') o); simpl; [|apply IHb].
      split; [eauto | reflexivity].
    + split; [discriminate | intros [n Hn]; discriminate Hn].
  - destruct f as [f'|]; simpl in IHf.
    + destruct (Nat.eqb (partitionItem f') o); simpl; [|apply IHf].
      split; [eauto | reflexivity].
    + split; [discriminate | intros [n Hn]; discriminate Hn].
Qed.

(** The first [delete] after a match is that of the object itself. *)
Lemma remove_deletes_the_object_first position t o n :
  foundNode position t o = Some n ->
  exists rest, snd (remove position t o) = DeleteItem o :: rest.
Proof.
  intros Hfound.
  pose proof (foundNode_anchor position t o n Hfound) as Hanchor.
  apply (remove_at_match position o n
           (fun _ log => exists rest, log = DeleteItem o :: rest));
    [ | | | | exact Hfound ].
  - intros pItem f _. unfold detach. simpl. rewrite Hanchor. eauto.
  - intros pItem b _. unfold detach. simpl. rewrite Hanchor. eauto.
  - intros pItem f b' log H. exact H.
  - intros pItem f' b log H. exact H.
Qed.

(** A matched leaf: the [delete]s are those of the object and of its node,
    and the in-order sequence of the tree loses that one entry. *)
Lemma remove_leaf position t :
  forall o n,
    foundNode position t o = Some n ->
    front n = None -> back n = None ->
    snd (remove position t o) = [DeleteItem o; DeleteNode o]
    /\ exists l1 l2, items t = l1 ++ o :: l2
                     /\ items (fst (remove position t o)) = l1 ++ l2.
Proof.
  induction t as [pItem f b IHf IHb] using BSPTree_induction.
  intros o n. simpl foundNode.
  destruct (Rltb (dotProduct position o pItem) 0) eqn:Hside.
  - destruct b as [b'|]; [|discriminate]. simpl in IHb.
    destruct (Nat.eqb (partitionItem b') o) eqn:Heq.
    + intros [= ->] Hf Hb. rewrite remove_back_match by assumption.
      apply Nat.eqb_eq in Heq. destruct n as [pn nf nb].
      simpl in Hf, Hb, Heq. subst nf nb pn.
      split; [reflexivity|].
      exists [], (pItem :: itemsOpt f). split; reflexivity.
    + intros Hn Hf Hb. rewrite remove_back_descend by assumption.
      destruct (IHb o n Hn Hf Hb) as (Hlog & l1 & l2 & H1 & H2).
      split; [exact Hlog|].
      exists l1, (l2 ++ pItem :: itemsOpt f). simpl fst.
      rewrite !items_node. simpl itemsOpt. rewrite H1, H2, <- !app_assoc.
      split; reflexivity.
  - destruct f as [f'|]; [|discriminate]. simpl in IHf.
    destruct (Nat.eqb (partitionItem f') o) eqn:Heq.
    + intros [= ->] Hf Hb. rewrite remove_front_match by assumption.
      apply Nat.eqb_eq in Heq. destruct n as [pn nf nb].
      simpl in Hf, Hb, Heq. subst nf nb pn.
      split; [reflexivity|].
      exists (itemsOpt b ++ [pItem]), []. simpl fst.
      rewrite !items_node. simpl. rewrite <- !app_assoc. split; reflexivity.
    + intros Hn Hf Hb. rewrite remove_front_descend by assumption.
      destruct (IHf o n Hn Hf Hb) as (Hlog & l1 & l2 & H1 & H2).
      split; [exact Hlog|].
      exists (itemsOpt b ++ pItem :: l1), l2. simpl fst.
      rewrite !items_node. simpl itemsOpt. rewrite H1, H2, <- !app_assoc.
      split; reflexivity.
Qed.

(** C6, as the code behaves.  When the descent of [remove(o)] meets a
    non-root node anchored at [o], the object [o] is not handed back: the
    first [delete] the partition issues is that of [o] itself.  When that
    node has no children, the call destroys exactly that one node: the only
    [delete]s are those of [o] and of its node, the root keeps its anchor,
    the in-order sequence of the tree is the one before the call with that
    entry taken out, and so every other object is still linked from the
    root. *)
Theorem remove_deletes_the_object_and_unlinks_a_leaf
        (position : ItemPtr -> vec3) (t : BSPTree) (o : ItemPtr) :
  onDescent position t o = true ->
  (exists rest, snd (remove position t o) = DeleteItem o :: rest)
  /\ (forall n,
         foundNode position t o = Some n ->
         front n = None -> back n = None ->
         snd (remove position t o) = [DeleteItem o; DeleteNode o]
         /\ partitionItem (fst (remove position t o)) = partitionItem t
         /\ (exists l1 l2, items t = l1 ++ o :: l2
                           /\ items (fst (remove position t o)) = l1 ++ l2)
         /\ (forall item, item <> o -> In item (items t) ->
                          In item (items (fst (remove position t o))))).
Proof.
  intros Hmet.
  apply onDescent_foundNode in Hmet as [n0 Hn0].
  split; [now apply remove_deletes_the_object_first with (n := n0)|].
  intros n Hn Hf Hb.
  destruct (remove_leaf position t o n Hn Hf Hb) as (Hlog & l1 & l2 & H1 & H2).
  split; [exact Hlog|].
  split; [apply partitionItem_remove|].
  split; [now exists l1, l2|].
  intros item Hne Hin. rewrite H1 in Hin. rewrite H2.
  apply in_app_or in Hin. apply in_or_app.
  destruct Hin as [Hin | [Heq | Hin]]; [now left | congruence | now right].
Qed.

Lemma remove_deletes_the_object_and_unlinks_a_leaf_witness :
  snd (remove Scenario.position Scenario.twins Scenario.objE)
  = [DeleteItem Scenario.objE; DeleteNode Scenario.objE]
  /\ In Scenario.objB
        (items (fst (remove Scenario.position Scenario.twins Scenario.objE))).
Proof.
  assert (Hmet : onDescent Scenario.position Scenario.twins Scenario.objE
                 = true).
  { rewrite scenario_twins. unfold newBSPTree. simpl.
    repeat (Rcompare; simpl). reflexivity. }
  assert (Hn : foundNode Scenario.position Scenario.twins Scenario.objE
               = Some (newBSPTree Scenario.objE)).
  { rewrite scenario_twins. unfold newBSPTree. simpl.
    repeat (Rcompare; simpl). reflexivity. }
  destruct (remove_deletes_the_object_and_unlinks_a_leaf
              Scenario.position Scenario.twins Scenario.objE Hmet)
    as [_ Hleaf].
  destruct (Hleaf (newBSPTree Scenario.objE) Hn eq_refl eq_refl)
    as (Hlog & _ & _ & Hin).
  split; [exact Hlog|].
  apply Hin; [discriminate|].
  rewrite scenario_twins. simpl. tauto.
Defined.

(** X28.  When the descent of [remove(o)] meets no node anchored at [o], in
    particular when [o] is not resident, the call returns the tree as it
    was and deletes nothing. *)
Theorem remove_without_match_changes_nothing
        (position : ItemPtr -> vec3) (t : BSPTree) (o : ItemPtr) :
  onDescent position t o = false \/ ~ In o (residents t) ->
  remove position t o = (t, []).
Proof.
  intros [Hmiss | Hfresh]; [now apply remove_not_found|].
  apply remove_not_found.
  destruct (onDescent position t o) eqn:Hmet; [|reflexivity].
  exfalso. apply Hfresh.
  now apply onDescent_resident with (position := position).
Qed.

Lemma remove_without_match_changes_nothing_witness :
  remove Scenario.position Scenario.twins Scenario.objC
  = (Scenario.twins, []).
Proof.
  apply (remove_without_match_changes_nothing
           Scenario.position Scenario.twins Scenario.objC).
  right. rewrite scenario_twins. unfold residents. simpl.
  intuition discriminate.
Defined.

(** X6.  When the matched node has a child, [remove] deletes an object, and
    the node that holds it, that the tree still links after the call: the
    anchor of the subtree that takes the place of the matched node. *)
Theorem remove_deletes_what_it_relinks
        (position : ItemPtr -> vec3) (t n : BSPTree) (o : ItemPtr) :
  foundNode position t o = Some n ->
  front n <> None \/ back n <> None ->
  exists item,
    In item (items (fst (remove position t o)))
    /\ In (DeleteItem item) (snd (remove position t o))
    /\ In (DeleteNode item) (snd (remove position t o)).
Proof.
  intros Hfound Hchild.
  assert (Hlocal : exists m item,
             mergeSubtrees (front n) (back n) = Some m
             /\ In item (items m)
             /\ In (DeleteItem item) (snd (detach n))
             /\ In (DeleteNode item) (snd (detach n))).
  { destruct n as [pn [f|] [b|]]; simpl in *.
    - exists (attachRightmost f b), (partitionItem f).
      split; [reflexivity|]. split.
      + rewrite items_attachRightmost. apply in_or_app. left.
        apply In_partitionItem.
      + assert (Hp : partitionItem (attachRightmost f b) = partitionItem f)
          by (destruct f as [p [ff|] fb]; reflexivity).
        unfold detach, tempAtDelete. simpl. rewrite Hp. split.
        * right. left. reflexivity.
        * right. right. apply in_or_app. left. apply in_or_app. left.
          apply in_or_app. right. now left.
    - exists f, (partitionItem f). split; [reflexivity|].
      split; [apply In_partitionItem|].
      unfold detach, tempAtDelete. simpl. split.
      + right. left. reflexivity.
      + right. right. apply in_or_app. left. rewrite app_nil_r.
        apply in_or_app. right. now left.
    - exists b, (partitionItem b). split; [reflexivity|].
      split; [apply In_partitionItem|].
      unfold detach, tempAtDelete. simpl. split.
      + right. left. reflexivity.
      + right. right. apply in_or_app. left.
        apply in_or_app. right. now left.
    - destruct Hchild as [H | H]; now contradiction H. }
  destruct Hlocal as (m & item & Hm & Hin & Hdi & Hdn).
  exists item.
  apply (remove_at_match position o n
           (fun t' log => In item (items t')
                          /\ In (DeleteItem item) log
                          /\ In (DeleteNode item) log));
    [ | | | | exact Hfound ].
  - intros pItem f _. rewrite Hm, items_node. simpl.
    split; [|now split]. apply in_or_app. now left.
  - intros pItem b _. rewrite Hm, items_node. simpl.
    split; [|now split]. apply in_or_app. right. now right.
  - intros pItem f b' log (H1 & H2 & H3). rewrite items_node. simpl.
    split; [|now split]. apply in_or_app. now left.
  - intros pItem f' b log (H1 & H2 & H3). rewrite items_node. simpl.
    split; [|now split]. apply in_or_app. right. now right.
Qed.

Lemma scenario_bushy_found :
  foundNode Scenario.position Scenario.bushy Scenario.objA
  = Some (mkBSPTree Scenario.objA (Some (newBSPTree Scenario.objC))
                    (Some (newBSPTree Scenario.objD))).
Proof.
  rewrite scenario_bushy. unfold newBSPTree. simpl.
  repeat (Rcompare; simpl). reflexivity.
Qed.

Lemma remove_deletes_what_it_relinks_witness :
  exists item,
    In item (items (fst (remove Scenario.position Scenario.bushy Scenario.objA)))
    /\ In (DeleteItem item)
          (snd (remove Scenario.position Scenario.bushy Scenario.objA))
    /\ In (DeleteNode item)
          (snd (remove Scenario.position Scenario.bushy Scenario.objA)).
Proof.
  apply (remove_deletes_what_it_relinks
           Scenario.position Scenario.bushy
           (mkBSPTree Scenario.objA (Some (newBSPTree Scenario.objC))
                      (Some (newBSPTree Scenario.objD)))
           Scenario.objA).
  - apply scenario_bushy_found.
  - left. discriminate.
Defined.

Lemma classified_front_z position pItem f b item :
  classified position (mkBSPTree pItem (Some f) b) ->
  In item (items f) -> z (position pItem) <= z (position item).
Proof.
  intros [[Hall _] _] Hin. specialize (Hall item Hin).
  rewrite <- dotProduct_dot, dotProduct_z in Hall. lra.
Qed.

Lemma classified_back_z position pItem f b item :
  classified position (mkBSPTree pItem f (Some b)) ->
  In item (items b) -> z (position item) < z (position pItem).
Proof.
  intros [_ [Hall _]] Hin. specialize (Hall item Hin).
  rewrite <- dotProduct_dot, dotProduct_z in Hall. lra.
Qed.

(** A back subtree hung in front of the deepest front node of a front
    subtree is on the wrong side of that node. *)
Lemma attachRightmost_not_classified position c b f :
  z (position (partitionItem b)) < c ->
  (forall item, In item (items f) -> c <= z (position item)) ->
  ~ classified position (attachRightmost f b).
Proof.
  intros Hb.
  induction f as [pf ff fb IHf _] using BSPTree_induction.
  intros Hf. simpl. destruct ff as [ff'|]; simpl in IHf.
  - intros [[_ Hcl] _]. revert Hcl. apply IHf.
    intros item Hin. apply Hf. rewrite items_node. simpl.
    apply in_or_app. right. now right.
  - intros Hcl.
    pose proof (classified_front_z position pf b fb (partitionItem b) Hcl
                                   (In_partitionItem b)) as Hz.
    assert (Hpf : c <= z (position pf)).
    { apply Hf. rewrite items_node. apply in_or_app. right. now left. }
    lra.
Qed.

(** X8.  [mergeSubtrees] does not keep the classification.  For the two
    children of a node of a classified tree it returns the front child with
    the back child hung in front of its deepest front node: all anchors are
    kept, in the order front then back, and the result is never classified,
    since the back child lies behind the plane of the node it hangs in front
    of. *)
Theorem mergeSubtrees_of_both_children_is_not_classified
        (position : ItemPtr -> vec3) (n f0 b0 : BSPTree) :
  classified position n ->
  front n = Some f0 ->
  back n = Some b0 ->
  mergeSubtrees (front n) (back n) = Some (attachRightmost f0 b0)
  /\ items (attachRightmost f0 b0) = items f0 ++ items b0
  /\ ~ classified position (attachRightmost f0 b0).
Proof.
  intros Hn Hf0 Hb0.
  split; [now rewrite Hf0, Hb0|].
  split; [apply items_attachRightmost|].
  destruct n as [pn nf nb]. simpl in Hf0, Hb0. subst nf nb.
  apply attachRightmost_not_classified with (c := z (position pn)).
  - apply (classified_back_z position pn (Some f0) b0 _ Hn).
    apply In_partitionItem.
  - intros item Hin.
    apply (classified_front_z position pn f0 (Some b0) _ Hn Hin).
Qed.

Lemma mergeSubtrees_of_both_children_is_not_classified_witness :
  ~ classified Scenario.position
               (attachRightmost (newBSPTree Scenario.objC)
                                (newBSPTree Scenario.objD)).
Proof.
  apply (mergeSubtrees_of_both_children_is_not_classified
           Scenario.position
           (mkBSPTree Scenario.objA (Some (newBSPTree Scenario.objC))
                      (Some (newBSPTree Scenario.objD)))
           (newBSPTree Scenario.objC) (newBSPTree Scenario.objD)).
  - assert (H : classified Scenario.position Scenario.bushy)
      by (unfold Scenario.bushy; apply classified_insertAll; simpl; tauto).
    rewrite scenario_bushy in H. destruct H as [_ [_ H]]. exact H.
  - reflexivity.
  - reflexivity.
Defined.

(** ** The query: order, soundness, completeness *)

Lemma Subseq_nil_l l : Subseq [] l.
Proof. induction l; constructor; assumption. Qed.

Lemma Subseq_refl l : Subseq l l.
Proof. induction l; constructor; assumption. Qed.

Lemma Subseq_app l1 l1' l2 l2' :
  Subseq l1 l1' -> Subseq l2 l2' -> Subseq (l1 ++ l2) (l1' ++ l2').
Proof.
  intros H1 H2. induction H1; simpl; [assumption | |]; constructor; assumption.
Qed.

Lemma Subseq_In l1 l2 item : Subseq l1 l2 -> In item l1 -> In item l2.
Proof.
  induction 1 as [|a l1 l2 _ IH|a l1 l2 _ IH]; simpl; [tauto | |].
  - intros H. right. now apply IH.
  - intros [-> | H]; [now left | right; now apply IH].
Qed.

Lemma Subseq_NoDup l1 l2 : Subseq l1 l2 -> NoDup l2 -> NoDup l1.
Proof.
  induction 1 as [|a l1 l2 Hs IH|a l1 l2 Hs IH]; intros Hnd.
  - constructor.
  - inversion Hnd; subst. now apply IH.
  - inversion Hnd as [|? ? Hnotin Hnd']; subst. constructor.
    + intros Hin. apply Hnotin. now apply (Subseq_In l1 l2).
    + now apply IH.
Qed.



Section Query.

Variable position : ItemPtr -> vec3.
Variable camera : Camera.

Lemma emitted_subseq checkFrustum t :
  Subseq (getAllFrontItems position t camera [] checkFrustum) (items t).
Proof.
  induction t as [pItem f b IHf IHb] using BSPTree_induction.
  rewrite items_node.
  assert (Hf : Subseq (emitted position camera checkFrustum f) (itemsOpt f)).
  { destruct f as [f'|]; [exact IHf | constructor]. }
  assert (Hb : Subseq (emitted position camera checkFrustum b) (itemsOpt b)).
  { destruct b as [b'|]; [exact IHb | constructor]. }
  destruct (Nat.eq_dec pItem nullptr) as [Hnull | Hnull].
  - simpl. apply Nat.eqb_eq in Hnull. rewrite Hnull. apply Subseq_nil_l.
  - destruct (isInFront position camera pItem
              && isInFrustum position camera checkFrustum pItem) eqn:Hpass.
    + rewrite getAllFrontItems_pass by assumption. simpl.
      apply Subseq_app; [assumption|]. now constructor.
    + rewrite getAllFrontItems_fail by assumption. simpl.
      apply (Subseq_app [] (itemsOpt b)); [apply Subseq_nil_l|].
      now constructor.
Qed.

Lemma emitted_sound checkFrustum t :
  Forall (fun item =>
            item <> nullptr
            /\ isInFront position camera item = true
            /\ isInFrustum position camera checkFrustum item = true)
         (getAllFrontItems position t camera [] checkFrustum).
Proof.
  induction t as [pItem f b IHf IHb] using BSPTree_induction.
  assert (Hf : Forall (fun item =>
            item <> nullptr
            /\ isInFront position camera item = true
            /\ isInFrustum position camera checkFrustum item = true)
                      (emitted position camera checkFrustum f)).
  { destruct f as [f'|]; [exact IHf | constructor]. }
  assert (Hb : Forall (fun item =>
            item <> nullptr
            /\ isInFront position camera item = true
            /\ isInFrustum position camera checkFrustum item = true)
                      (emitted position camera checkFrustum b)).
  { destruct b as [b'|]; [exact IHb | constructor]. }
  destruct (Nat.eq_dec pItem nullptr) as [Hnull | Hnull].
  - simpl. apply Nat.eqb_eq in Hnull. rewrite Hnull. constructor.
  - destruct (isInFront position camera pItem
              && isInFrustum position camera checkFrustum pItem) eqn:Hpass.
    + rewrite getAllFrontItems_pass by assumption. simpl.
      apply Forall_app. split; [assumption|]. constructor; [|assumption].
      apply andb_true_iff in Hpass. tauto.
    + rewrite getAllFrontItems_fail by assumption. assumption.
Qed.

Lemma emitted_complete checkFrustum t :
  (forall item, In item (items t) ->
                item <> nullptr
                /\ isInFront position camera item = true
                /\ isInFrustum position camera checkFrustum item = true) ->
  getAllFrontItems position t camera [] checkFrustum = items t.
Proof.
  induction t as [pItem f b IHf IHb] using BSPTree_induction.
  rewrite items_node. intros Hall.
  destruct (Hall pItem) as (Hnull & Hfront & Hfrustum).
  { apply in_or_app. right. now left. }
  rewrite getAllFrontItems_pass by (try assumption; now rewrite Hfront, Hfrustum).
  simpl. f_equal; [|f_equal].
  - destruct b as [b'|]; [|reflexivity]. apply IHb.
    intros item Hin. apply Hall. apply in_or_app. now left.
  - destruct f as [f'|]; [|reflexivity]. apply IHf.
    intros item Hin. apply Hall. apply in_or_app. right. now right.
Qed.

Lemma emitted_filter_subseq t :
  Subseq (getAllFrontItems position t camera [] true)
         (getAllFrontItems position t camera [] false).
Proof.
  induction t as [pItem f b IHf IHb] using BSPTree_induction.
  assert (Hf : Subseq (emitted position camera true f)
                      (emitted position camera false f)).
  { destruct f as [f'|]; [exact IHf | constructor]. }
  assert (Hb : Subseq (emitted position camera true b)
                      (emitted position camera false b)).
  { destruct b as [b'|]; [exact IHb | constructor]. }
  destruct (Nat.eq_dec pItem nullptr) as [Hnull | Hnull].
  - simpl. apply Nat.eqb_eq in Hnull. rewrite Hnull. constructor.
  - destruct (isInFront position camera pItem) eqn:Hfront.
    + rewrite (getAllFrontItems_pass position camera false)
        by (try assumption; now rewrite Hfront).
      destruct (isInFrustum position camera true pItem) eqn:Hfrustum.
      * rewrite getAllFrontItems_pass
          by (try assumption; now rewrite Hfront, Hfrustum).
        simpl. apply Subseq_app; [assumption|]. now constructor.
      * rewrite getAllFrontItems_fail
          by (try assumption; now rewrite Hfront, Hfrustum).
        simpl. apply (Subseq_app [] (emitted position camera false b));
          [apply Subseq_nil_l|]. now constructor.
    + rewrite !getAllFrontItems_fail by (try assumption; now rewrite Hfront).
      assumption.
Qed.

End Query.


(** X10.  Whatever the camera and the filter, the query lists anchors in
    the order of the tree's in-order sequence (back subtree, anchor, front
    subtree), leaving some out; it never reorders and never repeats a
    node. *)
Theorem query_follows_the_in_order_sequence
        (position : ItemPtr -> vec3) (t : BSPTree) (camera : Camera)
        (checkFrustum : bool) :
  Subseq (getCurrentFrontItems position t camera checkFrustum) (items t).
Proof. apply emitted_subseq. Qed.


Lemma items_insertAll position objects :
  forall t, Permutation (items (insertAll position t objects))
                        (rev objects ++ items t).
Proof.
  unfold insertAll.
  induction objects as [|o rest IH]; intros t; simpl; [reflexivity|].
  rewrite IH, (items_insert position t o), <- app_assoc. simpl.
  apply Permutation_app_head. reflexivity.
Qed.

(** X12.  When the root anchor and the inserted objects are pairwise
    distinct, no object is listed twice by the query. *)
Theorem query_lists_no_object_twice
        (position : ItemPtr -> vec3) (rootItem : ItemPtr)
        (objects : list ItemPtr) (camera : Camera) (checkFrustum : bool) :
  NoDup (rootItem :: objects) ->
  NoDup (getCurrentFrontItems
           position (insertAll position (newBSPTree rootItem) objects)
           camera checkFrustum).
Proof.
  intros Hnd.
  apply Subseq_NoDup
    with (l2 := items (insertAll position (newBSPTree rootItem) objects)).
  - apply emitted_subseq.
  - apply (Permutation_NoDup
             (Permutation_sym
                (items_insertAll position objects (newBSPTree rootItem)))).
    simpl. apply (Permutation_NoDup (l := rootItem :: rev objects)).
    + apply Permutation_cons_append.
    + apply (Permutation_NoDup (l := rootItem :: objects)); [|assumption].
      apply perm_skip, Permutation_rev.
Qed.

Lemma query_lists_no_object_twice_witness :
  NoDup (getCurrentFrontItems
           Scenario.position
           (insertAll Scenario.position (newBSPTree Scenario.root)
                      [Scenario.objA; Scenario.objB])
           Scenario.camera true).
Proof.
  apply (query_lists_no_object_twice
           Scenario.position Scenario.root [Scenario.objA; Scenario.objB]).
  repeat constructor; simpl; intuition discriminate.
Defined.

(** X13.  Every object the query returns is a non-null anchor that is
    strictly in front of the camera and, when the filter is on, passes the
    frustum test. *)
Theorem query_returns_only_passing_anchors
        (position : ItemPtr -> vec3) (t : BSPTree) (camera : Camera)
        (checkFrustum : bool) (item : ItemPtr) :
  In item (getCurrentFrontItems position t camera checkFrustum) ->
  item <> nullptr
  /\ In item (items t)
  /\ dot (sub (position item) (Position camera)) (Front camera) > 0
  /\ (checkFrustum = true -> isPointInFrustum (position item) camera = true).
Proof.
  intros Hin.
  pose proof (emitted_sound position camera checkFrustum t) as Hall.
  rewrite Forall_forall in Hall. destruct (Hall item Hin) as (H1 & H2 & H3).
  split; [exact H1|]. split.
  - now apply (Subseq_In _ _ item (emitted_subseq position camera checkFrustum t)).
  - split.
    + unfold isInFront, Rgtb in H2. apply Rltb_spec in H2. lra.
    + intros ->. exact H3.
Qed.

Lemma query_returns_only_passing_anchors_witness :
  isPointInFrustum (Scenario.position Scenario.objA) Scenario.camera = true.
Proof.
  apply (query_returns_only_passing_anchors
           Scenario.position Scenario.tree Scenario.camera true Scenario.objA).
  - rewrite scenario_query. simpl. tauto.
  - reflexivity.
Defined.

(** X14.  When every anchor of the tree is non-null, in front of the camera
    and passes the frustum test (or the filter is off), the query returns
    all of them, in the in-order sequence of the tree. *)
Theorem query_returns_all_when_all_pass
        (position : ItemPtr -> vec3) (t : BSPTree) (camera : Camera)
        (checkFrustum : bool) :
  (forall item, In item (items t) ->
                item <> nullptr
                /\ dot (sub (position item) (Position camera)) (Front camera) > 0
                /\ (checkFrustum = false
                    \/ isPointInFrustum (position item) camera = true)) ->
  getCurrentFrontItems position t camera checkFrustum = items t.
Proof.
  intros Hall. apply emitted_complete. intros item Hin.
  destruct (Hall item Hin) as (H1 & H2 & H3).
  split; [exact H1|]. split.
  - apply Rltb_true. lra.
  - unfold isInFrustum. destruct H3 as [-> | ->]; [reflexivity|].
    apply orb_true_r.
Qed.

Lemma query_returns_all_when_all_pass_witness :
  getCurrentFrontItems
    Scenario.position
    (mkBSPTree Scenario.root (Some (newBSPTree Scenario.objB))
               (Some (newBSPTree Scenario.objA)))
    Scenario.camera false
  = items (mkBSPTree Scenario.root (Some (newBSPTree Scenario.objB))
                     (Some (newBSPTree Scenario.objA))).
Proof.
  apply (query_returns_all_when_all_pass Scenario.position).
  simpl. intros item [<- | [<- | [<- | []]]];
    (split; [discriminate | split; [scene_unfold; lra | now left]]).
Defined.

(** X15.  Turning the frustum filter on only leaves objects out: the list
    returned with the filter is the list returned without it, less some
    elements, in the same order. *)
Theorem frustum_filter_only_leaves_out
        (position : ItemPtr -> vec3) (t : BSPTree) (camera : Camera) :
  Subseq (getCurrentFrontItems position t camera true)
         (getCurrentFrontItems position t camera false).
Proof. apply emitted_filter_subseq. Qed.

(** ** The frustum test: what it rejects and what it cannot reject *)

Lemma nearCenter_in_planes camera :
  In (add (Position camera) (scale (Front camera) nearPlane))
     (frustumPlanes camera).
Proof. unfold frustumPlanes. simpl. tauto. Qed.

(** X16.  A point that lies behind the camera (negative projection on
    [Front]) is never in the frustum. *)
Theorem point_behind_camera_is_outside (point : vec3) (camera : Camera) :
  dot (sub point (Position camera)) (Front camera) < 0 ->
  isPointInFrustum point camera = false.
Proof.
  intros Hbehind.
  destruct (isPointInFrustum point camera) eqn:Hin; [|reflexivity].
  exfalso. apply isPointInFrustum_true in Hin.
  rewrite Forall_forall in Hin.
  specialize (Hin _ (nearCenter_in_planes camera)).
  revert Hin Hbehind.
  destruct camera as [[p1 p2 p3] [f1 f2 f3] up fov], point as [q1 q2 q3].
  vec_unfold. intros Hin Hbehind. lra.
Qed.

Lemma point_behind_camera_is_outside_witness :
  isPointInFrustum (mkvec3 0 0 11) Scenario.camera = false.
Proof.
  apply (point_behind_camera_is_outside (mkvec3 0 0 11) Scenario.camera).
  scene_unfold. lra.
Defined.

Lemma dot_scaled (v w : vec3) (k : R) : dot (scale v k) w = k * dot v w.
Proof. destruct v, w. vec_unfold. ring. Qed.

Lemma sub_add_scale (p v : vec3) (k : R) :
  sub (add p (scale v k)) p = scale v k.
Proof. destruct p, v. apply vec3_eq; vec_unfold; ring. Qed.

Lemma forallb_pointwise (f g : vec3 -> bool) (l : list vec3) :
  (forall v, f v = g v) -> forallb f l = forallb g l.
Proof.
  intros Hfg. induction l as [|v rest IH]; simpl; [reflexivity|].
  now rewrite Hfg, IH.
Qed.

(** X17.  The frustum test only depends on the direction from the camera
    to the point: moving a point along the ray from the camera through it,
    by any positive factor, does not change the answer.  No distance, the
    far-plane distance included, ever excludes a point; and the camera
    position itself is inside. *)
Theorem frustum_test_ignores_distance
        (point : vec3) (camera : Camera) (k : R) :
  0 < k ->
  isPointInFrustum
    (add (Position camera) (scale (sub point (Position camera)) k)) camera
  = isPointInFrustum point camera
  /\ isPointInFrustum (Position camera) camera = true.
Proof.
  intros Hk. split.
  - unfold isPointInFrustum. apply forallb_pointwise. intros plane.
    rewrite sub_add_scale, dot_scaled. f_equal.
    set (d := dot (sub point (Position camera)) (sub plane (Position camera))).
    destruct (Rlt_dec d 0) as [Hd | Hd].
    + rewrite (Rltb_true d 0 Hd). apply Rltb_true. nra.
    + rewrite (Rltb_false d 0) by lra. apply Rltb_false. nra.
  - apply (in_frustum_on_axis camera (Position camera) 0); [lra|].
    destruct camera as [[p1 p2 p3] [f1 f2 f3] up fov].
    apply vec3_eq; vec_unfold; ring.
Qed.

Lemma frustum_test_ignores_distance_witness :
  isPointInFrustum
    (add (Position Scenario.camera)
         (scale (sub (mkvec3 0 0 0) (Position Scenario.camera)) 1000))
    Scenario.camera
  = isPointInFrustum (mkvec3 0 0 0) Scenario.camera.
Proof.
  apply (frustum_test_ignores_distance (mkvec3 0 0 0) Scenario.camera 1000).
  lra.
Defined.

(** ** One frame: who is moved *)

Lemma moveCalls_app events1 events2 :
  moveCalls (events1 ++ events2) = moveCalls events1 ++ moveCalls events2.
Proof.
  induction events1 as [|e rest IH]; simpl; [reflexivity|].
  destruct e; simpl; now rewrite IH.
Qed.

Lemma moveCalls_renderItem isFireFly deltaTime visible :
  moveCalls (flat_map (renderItem isFireFly deltaTime) visible)
  = map (fun item => (item, deltaTime)) (filter isFireFly visible).
Proof.
  induction visible as [|item rest IH]; simpl; [reflexivity|].
  destruct (isFireFly item); simpl; now rewrite IH.
Qed.

(** X18.  In a frame, [move] is called exactly on the fireflies among the
    objects the query returned, in the order of that list and with the
    frame's [deltaTime]; an object the query left out is neither rendered
    nor moved in that frame. *)
Theorem renderScene_moves_the_visible_fireflies
        (position : ItemPtr -> vec3) (isFireFly : ItemPtr -> bool)
        (live : list ItemPtr) (bsptree : BSPTree) (camera : Camera)
        (deltaTime : R) (checkFrustum : bool) :
  let visibleItems := getCurrentFrontItems position bsptree camera checkFrustum in
  let events :=
    fst (renderScene position isFireFly live bsptree camera deltaTime checkFrustum) in
  moveCalls events
  = map (fun item => (item, deltaTime)) (filter isFireFly visibleItems)
  /\ forall item dt, In (Move item dt) events ->
                     In item visibleItems /\ isFireFly item = true
                     /\ dt = deltaTime.
Proof.
  intros visibleItems events. unfold events, renderScene. simpl fst.
  fold visibleItems. split.
  - rewrite moveCalls_app, moveCalls_renderItem. simpl. now rewrite app_nil_r.
  - intros item dt Hin. apply in_app_or in Hin.
    destruct Hin as [Hin | Hin].
    + apply in_flat_map in Hin as (item' & Hvis & Hin).
      unfold renderItem in Hin. destruct (isFireFly item') eqn:Hfly;
        simpl in Hin.
      * destruct Hin as [Hin | [Hin | []]]; [discriminate|].
        injection Hin as <- <-. tauto.
      * destruct Hin as [Hin | []]. discriminate.
    + simpl in Hin. destruct Hin as [Hin | [Hin | []]]; discriminate.
Qed.

(** ** The camera *)

Lemma normalize_scaled (v : vec3) (c : R) :
  0 < c -> dot v v = c * c -> normalize v = scale v (/ c).
Proof.
  intros Hc Hv. unfold normalize. rewrite Hv, sqrt_square by lra. reflexivity.
Qed.

Lemma cos_radians_pos (pitch : R) :
  -89 <= pitch <= 89 -> 0 < cos (radians pitch).
Proof.
  intros [Hlo Hhi]. pose proof PI_RGT_0 as Hpi.
  apply cos_gt_0; unfold radians; nra.
Qed.

Lemma sin_cos_unit (a : R) : cos a * cos a + sin a * sin a = 1.
Proof. pose proof (sin2_cos2 a) as H. unfold Rsqr in H. lra. Qed.

(** The three vectors [updateCameraVectors] computes, when [WorldUp] is the
    y axis and the pitch is short of a quarter turn. *)
Lemma updateCameraVectors_explicit (c : FullCamera.t) :
  FullCamera.WorldUp c = mkvec3 0 1 0 ->
  0 < cos (radians (FullCamera.Pitch c)) ->
  let cy := cos (radians (FullCamera.Yaw c)) in
  let sy := sin (radians (FullCamera.Yaw c)) in
  let cp := cos (radians (FullCamera.Pitch c)) in
  let sp := sin (radians (FullCamera.Pitch c)) in
  FullCamera.Front (FullCamera.updateCameraVectors c)
  = mkvec3 (cy * cp) sp (sy * cp)
  /\ FullCamera.Right (FullCamera.updateCameraVectors c)
     = mkvec3 (- sy) 0 cy
  /\ FullCamera.Up (FullCamera.updateCameraVectors c)
     = mkvec3 (- (sp * cy)) cp (- (sy * sp)).
Proof.
  intros Hup Hcp cy sy cp sp.
  pose proof (sin_cos_unit (radians (FullCamera.Yaw c))) as Hy.
  pose proof (sin_cos_unit (radians (FullCamera.Pitch c))) as Hp.
  fold cy sy in Hy. fold cp sp in Hp. fold cp in Hcp.
  assert (HF : normalize (mkvec3 (cy * cp) sp (sy * cp))
               = mkvec3 (cy * cp) sp (sy * cp)).
  { apply normalize_unit. vec_unfold.
    replace (cy * cp * (cy * cp) + sp * sp + sy * cp * (sy * cp))
      with (cp * cp * (cy * cy + sy * sy) + sp * sp) by ring.
    rewrite Hy. lra. }
  assert (HR : normalize (cross (mkvec3 (cy * cp) sp (sy * cp)) (mkvec3 0 1 0))
               = mkvec3 (- sy) 0 cy).
  { rewrite (normalize_scaled _ cp Hcp).
    - apply vec3_eq; vec_unfold; field; lra.
    - vec_unfold.
      replace ((sp * 0 - 1 * (sy * cp)) * (sp * 0 - 1 * (sy * cp))
               + (sy * cp * 0 - 0 * (cy * cp)) * (sy * cp * 0 - 0 * (cy * cp))
               + (cy * cp * 1 - 0 * sp) * (cy * cp * 1 - 0 * sp))
        with (cp * cp * (cy * cy + sy * sy)) by ring.
      rewrite Hy. ring. }
  assert (HU : normalize (cross (mkvec3 (- sy) 0 cy)
                                (mkvec3 (cy * cp) sp (sy * cp)))
               = mkvec3 (- (sp * cy)) cp (- (sy * sp))).
  { rewrite normalize_unit.
    - apply vec3_eq; vec_unfold; try ring.
      replace (cy * (cy * cp) - sy * cp * - sy)
        with (cp * (cy * cy + sy * sy)) by ring.
      rewrite Hy. ring.
    - vec_unfold.
      replace ((0 * (sy * cp) - sp * cy) * (0 * (sy * cp) - sp * cy)
               + (cy * (cy * cp) - sy * cp * - sy)
                 * (cy * (cy * cp) - sy * cp * - sy)
               + (- sy * sp - cy * cp * 0) * (- sy * sp - cy * cp * 0))
        with (sp * sp * (cy * cy + sy * sy)
              + cp * cp * ((cy * cy + sy * sy) * (cy * cy + sy * sy)))
        by ring.
      rewrite Hy. lra. }
  unfold FullCamera.updateCameraVectors. simpl.
  fold cy sy cp sp. rewrite Hup, HF, HR, HU. repeat split.
Qed.

Lemma view_Front (c : FullCamera.t) :
  Front (FullCamera.view c) = FullCamera.Front c.
Proof. reflexivity. Qed.

Lemma view_Up (c : FullCamera.t) : Up (FullCamera.view c) = FullCamera.Up c.
Proof. reflexivity. Qed.

(** X19.  After [updateCameraVectors], with [WorldUp] the y axis and a pitch
    between -89 and 89 degrees, [Front], [Up] and [Right] are unit vectors
    orthogonal to one another: the camera the visibility code reads has the
    orthonormal [Front] and [Up] the frustum test is written for. *)
Theorem updateCameraVectors_gives_an_orthonormal_basis (c : FullCamera.t) :
  FullCamera.WorldUp c = mkvec3 0 1 0 ->
  -89 <= FullCamera.Pitch c <= 89 ->
  let c' := FullCamera.updateCameraVectors c in
  (dot (Front (FullCamera.view c')) (Front (FullCamera.view c')) = 1
   /\ dot (Up (FullCamera.view c')) (Up (FullCamera.view c')) = 1
   /\ dot (Front (FullCamera.view c')) (Up (FullCamera.view c')) = 0)
  /\ (dot (FullCamera.Right c') (FullCamera.Right c') = 1
      /\ dot (FullCamera.Right c') (FullCamera.Front c') = 0
      /\ dot (FullCamera.Right c') (FullCamera.Up c') = 0).
Proof.
  intros Hup Hpitch c'.
  destruct (updateCameraVectors_explicit c Hup (cos_radians_pos _ Hpitch))
    as (HF & HR & HU).
  pose proof (sin_cos_unit (radians (FullCamera.Yaw c))) as Hy.
  pose proof (sin_cos_unit (radians (FullCamera.Pitch c))) as Hp.
  subst c'. rewrite !view_Front, !view_Up, HF, HR, HU.
  set (cy := cos (radians (FullCamera.Yaw c))) in *.
  set (sy := sin (radians (FullCamera.Yaw c))) in *.
  set (cp := cos (radians (FullCamera.Pitch c))) in *.
  set (sp := sin (radians (FullCamera.Pitch c))) in *.
  vec_unfold. repeat split.
  - replace (cy * cp * (cy * cp) + sp * sp + sy * cp * (sy * cp))
      with (cp * cp * (cy * cy + sy * sy) + sp * sp) by ring.
    rewrite Hy. lra.
  - replace (- (sp * cy) * - (sp * cy) + cp * cp + - (sy * sp) * - (sy * sp))
      with (sp * sp * (cy * cy + sy * sy) + cp * cp) by ring.
    rewrite Hy. lra.
  - replace (cy * cp * - (sp * cy) + sp * cp + sy * cp * - (sy * sp))
      with (sp * cp * (1 - (cy * cy + sy * sy))) by ring.
    rewrite Hy. ring.
  - replace (- sy * - sy + 0 * 0 + cy * cy) with (cy * cy + sy * sy) by ring.
    exact Hy.
  - ring.
  - ring.
Qed.

Lemma updateCameraVectors_gives_an_orthonormal_basis_witness :
  dot (Front (FullCamera.view
                (FullCamera.updateCameraVectors
                   (FullCamera.new (mkvec3 0 (17 / 5) (31 / 5)) (mkvec3 0 1 0)
                                   FullCamera.YAW FullCamera.PITCH))))
      (Up (FullCamera.view
             (FullCamera.updateCameraVectors
                (FullCamera.new (mkvec3 0 (17 / 5) (31 / 5)) (mkvec3 0 1 0)
                                FullCamera.YAW FullCamera.PITCH))))
  = 0.
Proof.
  apply (updateCameraVectors_gives_an_orthonormal_basis
           (FullCamera.new (mkvec3 0 (17 / 5) (31 / 5)) (mkvec3 0 1 0)
                           FullCamera.YAW FullCamera.PITCH)).
  - reflexivity.
  - simpl. unfold FullCamera.PITCH. lra.
Defined.

(** X20.  [ProcessMouseMovement] with [constrainPitch] leaves the pitch
    between -89 and 89 degrees whatever the offsets, and, when [WorldUp] is
    the y axis, a camera whose [Front] and [Up] are orthonormal. *)
Theorem ProcessMouseMovement_constrains_the_pitch
        (xoffset yoffset : R) (c : FullCamera.t) :
  let c' := FullCamera.ProcessMouseMovement xoffset yoffset true c in
  -89 <= FullCamera.Pitch c' <= 89
  /\ (FullCamera.WorldUp c = mkvec3 0 1 0 ->
      dot (Front (FullCamera.view c')) (Front (FullCamera.view c')) = 1
      /\ dot (Up (FullCamera.view c')) (Up (FullCamera.view c')) = 1
      /\ dot (Front (FullCamera.view c')) (Up (FullCamera.view c')) = 0).
Proof.
  intros c'.
  assert (Hpitch : -89 <= FullCamera.Pitch c' <= 89).
  { unfold c', FullCamera.ProcessMouseMovement. simpl.
    set (p := FullCamera.Pitch c + yoffset * FullCamera.MouseSensitivity c).
    unfold Rgtb, Rltb.
    destruct (Rlt_dec 89 p); [destruct (Rlt_dec 89 (-89)); lra|].
    destruct (Rlt_dec p (-89)); lra. }
  split; [exact Hpitch|].
  intros Hup.
  unfold c', FullCamera.ProcessMouseMovement in *.
  match goal with
  | |- context [FullCamera.updateCameraVectors ?c0] =>
      apply (updateCameraVectors_gives_an_orthonormal_basis c0);
      [exact Hup | exact Hpitch]
  end.
Qed.

Lemma ProcessMouseMovement_constrains_the_pitch_witness :
  dot (Front (FullCamera.view
                (FullCamera.ProcessMouseMovement
                   0 5000 true
                   (FullCamera.new (mkvec3 0 0 0) (mkvec3 0 1 0)
                                   FullCamera.YAW FullCamera.PITCH))))
      (Up (FullCamera.view
             (FullCamera.ProcessMouseMovement
                0 5000 true
                (FullCamera.new (mkvec3 0 0 0) (mkvec3 0 1 0)
                                FullCamera.YAW FullCamera.PITCH))))
  = 0.
Proof.
  apply (ProcessMouseMovement_constrains_the_pitch
           0 5000
           (FullCamera.new (mkvec3 0 0 0) (mkvec3 0 1 0)
                           FullCamera.YAW FullCamera.PITCH)).
  reflexivity.
Defined.

(** X21.  [ProcessMouseScroll] leaves the movement speed between 1 and 45
    whatever the scroll offset, takes the offset off the speed when that
    stays in range, and changes nothing else of the camera. *)
Theorem ProcessMouseScroll_clamps_the_speed (yoffset : R) (c : FullCamera.t) :
  let c' := FullCamera.ProcessMouseScroll yoffset c in
  1 <= FullCamera.MovementSpeed c' <= 45
  /\ (1 <= FullCamera.MovementSpeed c - yoffset <= 45 ->
      FullCamera.MovementSpeed c' = FullCamera.MovementSpeed c - yoffset)
  /\ FullCamera.view c' = FullCamera.view c
  /\ FullCamera.Yaw c' = FullCamera.Yaw c
  /\ FullCamera.Pitch c' = FullCamera.Pitch c
  /\ FullCamera.Right c' = FullCamera.Right c
  /\ FullCamera.WorldUp c' = FullCamera.WorldUp c
  /\ FullCamera.MouseSensitivity c' = FullCamera.MouseSensitivity c
  /\ FullCamera.Zoom c' = FullCamera.Zoom c.
Proof.
  intros c'. unfold c', FullCamera.ProcessMouseScroll. simpl.
  set (s := FullCamera.MovementSpeed c - yoffset).
  unfold Rgtb, Rltb.
  repeat split; try reflexivity;
    destruct (Rlt_dec s 1);
    try (destruct (Rlt_dec 45 1)); try (destruct (Rlt_dec 45 s)); lra.
Qed.

Lemma ProcessMouseScroll_clamps_the_speed_witness :
  FullCamera.MovementSpeed
    (FullCamera.ProcessMouseScroll
       1 (FullCamera.new (mkvec3 0 0 0) (mkvec3 0 1 0)
                         FullCamera.YAW FullCamera.PITCH))
  = FullCamera.MovementSpeed
      (FullCamera.new (mkvec3 0 0 0) (mkvec3 0 1 0)
                      FullCamera.YAW FullCamera.PITCH) - 1.
Proof.
  apply (ProcessMouseScroll_clamps_the_speed
           1 (FullCamera.new (mkvec3 0 0 0) (mkvec3 0 1 0)
                             FullCamera.YAW FullCamera.PITCH)).
  simpl. unfold FullCamera.SPEED. lra.
Defined.

Lemma front_unit (yaw pitch : R) :
  normalize (mkvec3 (cos (radians yaw) * cos (radians pitch))
                    (sin (radians pitch))
                    (sin (radians yaw) * cos (radians pitch)))
  = mkvec3 (cos (radians yaw) * cos (radians pitch))
           (sin (radians pitch))
           (sin (radians yaw) * cos (radians pitch)).
Proof.
  apply normalize_unit. vec_unfold.
  pose proof (sin_cos_unit (radians yaw)) as Hy.
  pose proof (sin_cos_unit (radians pitch)) as Hp.
  set (cy := cos (radians yaw)) in *. set (sy := sin (radians yaw)) in *.
  set (cp := cos (radians pitch)) in *. set (sp := sin (radians pitch)) in *.
  replace (cy * cp * (cy * cp) + sp * sp + sy * cp * (sy * cp))
    with (cp * cp * (cy * cy + sy * sy) + sp * sp) by ring.
  rewrite Hy. lra.
Qed.

Lemma Front_updateCameraVectors (c : FullCamera.t) :
  FullCamera.Front (FullCamera.updateCameraVectors c)
  = mkvec3 (cos (radians (FullCamera.Yaw c)) * cos (radians (FullCamera.Pitch c)))
           (sin (radians (FullCamera.Pitch c)))
           (sin (radians (FullCamera.Yaw c)) * cos (radians (FullCamera.Pitch c))).
Proof. unfold FullCamera.updateCameraVectors. simpl. apply front_unit. Qed.

Lemma half_turn (yaw : R) :
  cos (radians (yaw + 180)) = - cos (radians yaw)
  /\ sin (radians (yaw + 180)) = - sin (radians yaw)
  /\ cos (radians (yaw + 180 - 360)) = - cos (radians yaw)
  /\ sin (radians (yaw + 180 - 360)) = - sin (radians yaw).
Proof.
  assert (H1 : radians (yaw + 180) = radians yaw + PI)
    by (unfold radians; field).
  assert (H2 : radians (yaw + 180 - 360) = radians yaw - PI)
    by (unfold radians; field).
  rewrite H1, H2, neg_cos, neg_sin, cos_minus, sin_minus, cos_PI, sin_PI.
  repeat split; ring.
Qed.

(** X22.  [InvertFront] turns the view direction half a turn about the
    vertical axis: the x and z components of [Front] change sign and the y
    component stays, so a camera that looks down still looks down; the
    pitch and the position are kept. *)
Theorem InvertFront_mirrors_the_horizontal_direction (c : FullCamera.t) :
  let before := FullCamera.Front (FullCamera.updateCameraVectors c) in
  let c' := FullCamera.InvertFront c in
  FullCamera.Front c' = mkvec3 (- x before) (y before) (- z before)
  /\ FullCamera.Pitch c' = FullCamera.Pitch c
  /\ FullCamera.Position c' = FullCamera.Position c
  /\ (FullCamera.Yaw c' = FullCamera.Yaw c + 180
      \/ FullCamera.Yaw c' = FullCamera.Yaw c - 180).
Proof.
  intros before c'. subst before c'.
  rewrite !Front_updateCameraVectors.
  unfold FullCamera.InvertFront. simpl.
  destruct (half_turn (FullCamera.Yaw c)) as (Hc & Hs & Hc' & Hs').
  split; [|split; [reflexivity | split; [reflexivity|]]].
  - destruct (Rgtb (FullCamera.Yaw c + 180) 360).
    + rewrite front_unit, Hc', Hs'. apply vec3_eq; simpl; ring.
    + rewrite front_unit, Hc, Hs. apply vec3_eq; simpl; ring.
  - destruct (Rgtb (FullCamera.Yaw c + 180) 360); [right; lra | now left].
Qed.

Lemma setPosition_same (c : FullCamera.t) :
  FullCamera.setPosition c (FullCamera.Position c) = c.
Proof. now destruct c. Qed.

Lemma step_back (p v : vec3) (k : R) :
  sub (add p (scale v k)) (scale v k) = p
  /\ add (sub p (scale v k)) (scale v k) = p.
Proof.
  destruct p, v. split; apply vec3_eq; vec_unfold; ring.
Qed.

(** X23.  [ProcessKeyboard] moves the position only (orientation, angles
    and speed are kept), and a step in one direction followed by a step in
    the opposite direction with the same [deltaTime] brings the camera
    back. *)
Theorem ProcessKeyboard_steps_cancel
        (direction : FullCamera.Camera_Movement) (deltaTime : R)
        (c : FullCamera.t) :
  (FullCamera.Front (FullCamera.ProcessKeyboard direction deltaTime c)
   = FullCamera.Front c
   /\ FullCamera.Up (FullCamera.ProcessKeyboard direction deltaTime c)
      = FullCamera.Up c
   /\ FullCamera.MovementSpeed (FullCamera.ProcessKeyboard direction deltaTime c)
      = FullCamera.MovementSpeed c
   /\ FullCamera.Right (FullCamera.ProcessKeyboard direction deltaTime c)
      = FullCamera.Right c
   /\ FullCamera.WorldUp (FullCamera.ProcessKeyboard direction deltaTime c)
      = FullCamera.WorldUp c
   /\ FullCamera.Yaw (FullCamera.ProcessKeyboard direction deltaTime c)
      = FullCamera.Yaw c
   /\ FullCamera.Pitch (FullCamera.ProcessKeyboard direction deltaTime c)
      = FullCamera.Pitch c
   /\ FullCamera.MouseSensitivity
        (FullCamera.ProcessKeyboard direction deltaTime c)
      = FullCamera.MouseSensitivity c
   /\ FullCamera.Zoom (FullCamera.ProcessKeyboard direction deltaTime c)
      = FullCamera.Zoom c
   /\ FullCamera.Fov (FullCamera.ProcessKeyboard direction deltaTime c)
      = FullCamera.Fov c)
  /\ FullCamera.ProcessKeyboard
       FullCamera.BACKWARD deltaTime
       (FullCamera.ProcessKeyboard FullCamera.FORWARD deltaTime c) = c
  /\ FullCamera.ProcessKeyboard
       FullCamera.RIGHT deltaTime
       (FullCamera.ProcessKeyboard FullCamera.LEFT deltaTime c) = c
  /\ FullCamera.ProcessKeyboard
       FullCamera.UP deltaTime
       (FullCamera.ProcessKeyboard FullCamera.DOWN deltaTime c) = c.
Proof.
  split.
  - destruct direction; cbv [FullCamera.ProcessKeyboard
                             FullCamera.Camera_Movement_eqb
                             FullCamera.setPosition];
      cbn [FullCamera.Front FullCamera.Up FullCamera.MovementSpeed
           FullCamera.Right FullCamera.WorldUp FullCamera.Yaw
           FullCamera.Pitch FullCamera.MouseSensitivity FullCamera.Zoom
           FullCamera.Fov];
      repeat split.
  - destruct c as [p f u r w yw pt sp ms zm fv].
    cbv [FullCamera.ProcessKeyboard FullCamera.Camera_Movement_eqb
         FullCamera.setPosition FullCamera.Position FullCamera.Front
         FullCamera.Up FullCamera.Right FullCamera.WorldUp FullCamera.Yaw
         FullCamera.Pitch FullCamera.MovementSpeed
         FullCamera.MouseSensitivity FullCamera.Zoom FullCamera.Fov].
    repeat split; f_equal; apply step_back.
Qed.

(** ** What rendering and moving write into an object *)

Lemma mulVec_unit_w (m : Mat.mat4) :
  Mat.mulVec m (Mat.mkvec4 0 0 0 1) = Mat.col3 m.
Proof.
  destruct m as [c0 c1 c2 [a b c d]]. unfold Mat.mulVec. simpl.
  f_equal; ring.
Qed.

Lemma mulVec_mul (a b : Mat.mat4) (v : Mat.vec4) :
  Mat.mulVec (Mat.mul a b) v = Mat.mulVec a (Mat.mulVec b v).
Proof.
  destruct a as [[a00 a01 a02 a03] [a10 a11 a12 a13]
                 [a20 a21 a22 a23] [a30 a31 a32 a33]].
  destruct b as [[b00 b01 b02 b03] [b10 b11 b12 b13]
                 [b20 b21 b22 b23] [b30 b31 b32 b33]].
  destruct v as [v0 v1 v2 v3].
  unfold Mat.mul, Mat.mulVec. cbn [Mat.col0 Mat.col1 Mat.col2 Mat.col3
                                   Mat.x4 Mat.y4 Mat.z4 Mat.w4].
  f_equal; ring.
Qed.

Lemma col3_mul (a b : Mat.mat4) :
  Mat.col3 (Mat.mul a b) = Mat.mulVec a (Mat.col3 b).
Proof. reflexivity. Qed.

Lemma drawObject_position
      (scaleVec : vec3) (rotation : Mat.mat4) (translateVec : vec3)
      (transformData : Transform) :
  Mat.col3 rotation = Mat.mkvec4 0 0 0 1 ->
  snd (drawObject scaleVec rotation translateVec transformData)
  = Mat.xyz
      (Mat.mulVec (transformTranslation transformData)
         (Mat.mulVec (transformRotation transformData)
            (Mat.mulVec (transformScale transformData)
                        (Mat.point translateVec)))).
Proof.
  intros Hrot. unfold drawObject. cbn [snd]. f_equal.
  rewrite col3_mul.
  change (Mat.col3 (Mat.scaling scaleVec)) with (Mat.mkvec4 0 0 0 1).
  rewrite mulVec_unit_w, col3_mul, Hrot, mulVec_unit_w, col3_mul.
  change (Mat.col3 (Mat.translate translateVec))
    with (Mat.point translateVec).
  now rewrite !mulVec_mul.
Qed.

(** X24.  [drawObject] overwrites the object's [position] and
    [initialPosition] with the translation column of the model matrix.  For
    a rotation argument without translation part that vector is
    [translateVec] taken through the object's [transformData] (scale, then
    rotation, then translation); it does not depend on [scaleVec] nor on the
    rest of the rotation, and it is [translateVec] itself for a default
    [Transform]. *)
Theorem drawObject_writes_the_transformed_translation
        (scaleVec : vec3) (rotation : Mat.mat4) (translateVec : vec3)
        (transformData : Transform) :
  Mat.col3 rotation = Mat.mkvec4 0 0 0 1 ->
  snd (drawObject scaleVec rotation translateVec transformData)
  = Mat.xyz
      (Mat.mulVec (transformTranslation transformData)
         (Mat.mulVec (transformRotation transformData)
            (Mat.mulVec (transformScale transformData)
                        (Mat.point translateVec))))
  /\ (forall scaleVec' rotation',
         Mat.col3 rotation' = Mat.mkvec4 0 0 0 1 ->
         snd (drawObject scaleVec' rotation' translateVec transformData)
         = snd (drawObject scaleVec rotation translateVec transformData))
  /\ snd (drawObject scaleVec rotation translateVec
                     MoreFixtures.identityTransform)
     = translateVec.
Proof.
  intros Hrot. split; [now apply drawObject_position|]. split.
  - intros scaleVec' rotation' Hrot'.
    now rewrite !drawObject_position.
  - rewrite drawObject_position by assumption.
    destruct translateVec as [tx ty tz].
    unfold MoreFixtures.identityTransform, Mat.identity, Mat.mulVec, Mat.xyz,
      Mat.point.
    cbn [transformTranslation transformRotation transformScale
         Mat.col0 Mat.col1 Mat.col2 Mat.col3 Mat.x4 Mat.y4 Mat.z4 Mat.w4
         Glm.x Glm.y Glm.z].
    apply vec3_eq; cbn [Glm.x Glm.y Glm.z]; ring.
Qed.

Lemma drawObject_writes_the_transformed_translation_witness :
  snd (drawObject (mkvec3 (5 / 100) (5 / 100) (5 / 100))
                  MoreFixtures.quarterTurn (mkvec3 0 4 (-5 / 2))
                  MoreFixtures.movedTransform)
  = Mat.xyz
      (Mat.mulVec (transformTranslation MoreFixtures.movedTransform)
         (Mat.mulVec (transformRotation MoreFixtures.movedTransform)
            (Mat.mulVec (transformScale MoreFixtures.movedTransform)
                        (Mat.point (mkvec3 0 4 (-5 / 2)))))).
Proof.
  apply (drawObject_writes_the_transformed_translation
           (mkvec3 (5 / 100) (5 / 100) (5 / 100)) MoreFixtures.quarterTurn
           (mkvec3 0 4 (-5 / 2)) MoreFixtures.movedTransform).
  reflexivity.
Defined.

Lemma unitRand_bounds (RAND_MAX r : nat) :
  (0 < RAND_MAX)%nat -> (r <= RAND_MAX)%nat ->
  0 <= FireFlyClass.unitRand RAND_MAX r <= 1.
Proof.
  intros Hmax Hr. unfold FireFlyClass.unitRand.
  assert (HM : 0 < INR RAND_MAX) by now apply lt_0_INR.
  assert (H0 : 0 <= INR r) by apply pos_INR.
  assert (H1 : INR r <= INR RAND_MAX) by now apply le_INR.
  split.
  - apply Rmult_le_pos; [assumption|]. left. now apply Rinv_0_lt_compat.
  - apply (Rmult_le_reg_r (INR RAND_MAX)); [assumption|].
    unfold Rdiv. rewrite Rmult_assoc, Rinv_l by lra. lra.
Qed.

Lemma step_bound (speed deltaTime w : R) :
  -11 / 10 <= w <= 11 / 10 ->
  Rabs (speed * deltaTime * w) <= 11 / 10 * (Rabs speed * Rabs deltaTime).
Proof.
  intros Hw. rewrite !Rabs_mult.
  assert (Habs : Rabs w <= 11 / 10) by (apply Rabs_le; lra).
  pose proof (Rabs_pos speed). pose proof (Rabs_pos deltaTime).
  assert (0 <= Rabs speed * Rabs deltaTime) by now apply Rmult_le_pos.
  nra.
Qed.

(** X25.  [FireFly::move] changes the x and y coordinates, the speed and the
    angle only: the z coordinate, the initial position and the transform
    are kept.  With [rand()] results between 0 and [RAND_MAX], the speed
    changes in size by at most 0.005, and each of the two coordinates moves
    by at most 1.1 times the new speed times [deltaTime]. *)
Theorem move_stays_in_its_plane_and_steps_are_bounded
        (RAND_MAX r1 r2 r3 r4 : nat) (deltaTime : R) (s : FireFlyClass.t) :
  (0 < RAND_MAX)%nat ->
  (r1 <= RAND_MAX)%nat -> (r3 <= RAND_MAX)%nat -> (r4 <= RAND_MAX)%nat ->
  let s' := FireFlyClass.move RAND_MAX r1 r2 r3 r4 deltaTime s in
  (z (FireFlyClass.position s') = z (FireFlyClass.position s)
   /\ FireFlyClass.initialPosition s' = FireFlyClass.initialPosition s
   /\ FireFlyClass.transformData s' = FireFlyClass.transformData s)
  /\ Rabs (FireFlyClass.speed s') <= Rabs (FireFlyClass.speed s) + 5 / 1000
  /\ Rabs (x (FireFlyClass.position s') - x (FireFlyClass.position s))
     <= 11 / 10 * (Rabs (FireFlyClass.speed s') * Rabs deltaTime)
  /\ Rabs (y (FireFlyClass.position s') - y (FireFlyClass.position s))
     <= 11 / 10 * (Rabs (FireFlyClass.speed s') * Rabs deltaTime)
  /\ Rabs (FireFlyClass.speed s) - 5 / 1000 <= Rabs (FireFlyClass.speed s').
Proof.
  intros Hmax H1 H3 H4 s'.
  pose proof (unitRand_bounds RAND_MAX r1 Hmax H1) as Hu1.
  pose proof (unitRand_bounds RAND_MAX r3 Hmax H3) as Hu3.
  pose proof (unitRand_bounds RAND_MAX r4 Hmax H4) as Hu4.
  split; [repeat split|]. split; [|split; [|split]].
  - unfold s', FireFlyClass.move. simpl.
    set (v := FireFlyClass.speed s
              + FireFlyClass.unitRand RAND_MAX r1 * (1 / 100) - 5 / 1000).
    assert (Hv : Rabs v <= Rabs (FireFlyClass.speed s) + 5 / 1000).
    { unfold v.
      replace (FireFlyClass.speed s
               + FireFlyClass.unitRand RAND_MAX r1 * (1 / 100) - 5 / 1000)
        with (FireFlyClass.speed s
              + (FireFlyClass.unitRand RAND_MAX r1 * (1 / 100) - 5 / 1000))
        by ring.
      eapply Rle_trans; [apply Rabs_triang|].
      apply Rplus_le_compat_l. apply Rabs_le. lra. }
    destruct (Rgtb _ 3); [rewrite Rabs_Ropp|]; exact Hv.
  - unfold s', FireFlyClass.move. simpl.
    match goal with
    | |- Rabs (?p + ?v * ?d * ?w - ?p) <= _ =>
        replace (p + v * d * w - p) with (v * d * w) by ring;
        apply step_bound
    end.
    match goal with |- _ <= sin ?a + _ - _ <= _ =>
      pose proof (SIN_bound a) end.
    lra.
  - unfold s', FireFlyClass.move. simpl.
    match goal with
    | |- Rabs (?p + ?v * ?d * ?w - ?p) <= _ =>
        replace (p + v * d * w - p) with (v * d * w) by ring;
        apply step_bound
    end.
    match goal with |- _ <= cos ?a + _ - _ <= _ =>
      pose proof (COS_bound a) end.
    lra.
  - unfold s', FireFlyClass.move. simpl.
    set (v := FireFlyClass.speed s
              + FireFlyClass.unitRand RAND_MAX r1 * (1 / 100) - 5 / 1000).
    assert (Hv : Rabs (FireFlyClass.speed s) - 5 / 1000 <= Rabs v).
    { replace (FireFlyClass.speed s)
        with (v + - (FireFlyClass.unitRand RAND_MAX r1 * (1 / 100) - 5 / 1000))
        at 1 by (unfold v; ring).
      eapply Rle_trans;
        [apply Rplus_le_compat_r, Rabs_triang|].
      rewrite Rabs_Ropp.
      assert (Hd : Rabs (FireFlyClass.unitRand RAND_MAX r1 * (1 / 100)
                         - 5 / 1000) <= 5 / 1000)
        by (apply Rabs_le; lra).
      lra. }
    destruct (Rgtb _ 3); [rewrite Rabs_Ropp|]; exact Hv.
Qed.

Lemma move_stays_in_its_plane_and_steps_are_bounded_witness :
  z (FireFlyClass.position
       (FireFlyClass.move 1000 100 200 300 400 (1 / 60) MoreFixtures.firefly))
  = z (FireFlyClass.position MoreFixtures.firefly).
Proof.
  apply (move_stays_in_its_plane_and_steps_are_bounded
           1000 100 200 300 400 (1 / 60) MoreFixtures.firefly); lia.
Defined.

Lemma length_zero (p : vec3) : length (sub p p) = 0.
Proof.
  destruct p as [p1 p2 p3]. vec_unfold.
  replace ((p1 - p1) * (p1 - p1) + (p2 - p2) * (p2 - p2)
           + (p3 - p3) * (p3 - p3)) with 0 by ring.
  apply sqrt_0.
Qed.

(** X26.  [render] leaves the firefly with [initialPosition] equal to
    [position].  So in a frame, where [render] comes before [move], the
    test of [move] for a firefly more than 3 away from its initial position
    never holds: the speed is never reversed, however far the firefly has
    flown. *)
Theorem move_after_render_never_turns_back
        (camera : Camera) (gTextureYellow : nat)
        (gSphereMesh gLowSphereMesh : GLMesh) (rotation : Mat.mat4)
        (RAND_MAX r1 r2 r3 r4 : nat) (deltaTime : R) (s : FireFlyClass.t) :
  let rendered :=
    fst (FireFlyClass.render camera gTextureYellow gSphereMesh gLowSphereMesh
                             rotation s) in
  FireFlyClass.initialPosition rendered = FireFlyClass.position rendered
  /\ FireFlyClass.speed
       (FireFlyClass.move RAND_MAX r1 r2 r3 r4 deltaTime rendered)
     = FireFlyClass.speed s
       + FireFlyClass.unitRand RAND_MAX r1 * (1 / 100) - 5 / 1000.
Proof.
  intros rendered. unfold rendered, FireFlyClass.render.
  destruct (drawObject _ rotation _ _) as [model p]. simpl.
  split; [reflexivity|].
  rewrite length_zero. unfold Rgtb.
  rewrite Rltb_false by lra. reflexivity.
Qed.

(** The same firefly, moved without the [render] before it, does turn
    back. *)
Lemma move_alone_turns_back (RAND_MAX r2 r3 r4 : nat) (deltaTime : R) :
  FireFlyClass.speed
    (FireFlyClass.move RAND_MAX 0 r2 r3 r4 deltaTime MoreFixtures.firefly)
  = - (11295 / 10000 - 5 / 1000).
Proof.
  unfold FireFlyClass.move, MoreFixtures.firefly, FireFlyClass.unitRand.
  cbn [FireFlyClass.speed FireFlyClass.initialPosition FireFlyClass.position
       INR].
  assert (Hfar : Rgtb (length (sub (mkvec3 0 4 (-5 / 2))
                                   (mkvec3 4 7 (-5 / 2)))) 3 = true).
  { unfold Rgtb. apply Rltb_true. vec_unfold.
    replace ((0 - 4) * (0 - 4) + (4 - 7) * (4 - 7)
             + (-5 / 2 - -5 / 2) * (-5 / 2 - -5 / 2)) with (5 * 5) by lra.
    rewrite sqrt_square; lra. }
  rewrite Hfar. unfold Rdiv. ring.
Qed.

(** X27.  A frame does not move a firefly along z: for a firefly with a
    default [Transform], [render] followed by [move] leaves the z coordinate
    as it was.  Since the partition reads z only, the trees that [insert]
    and [remove] build, and whether a tree is classified, are the same with
    the firefly's position before and after the frame. *)
Theorem firefly_frame_keeps_the_partition
        (position : ItemPtr -> vec3) (fly : ItemPtr) (camera : Camera)
        (gTextureYellow : nat) (gSphereMesh gLowSphereMesh : GLMesh)
        (rotation : Mat.mat4) (RAND_MAX r1 r2 r3 r4 : nat) (deltaTime : R)
        (s : FireFlyClass.t) (t : BSPTree) (o : ItemPtr) :
  Mat.col3 rotation = Mat.mkvec4 0 0 0 1 ->
  FireFlyClass.transformData s = MoreFixtures.identityTransform ->
  position fly = FireFlyClass.position s ->
  let s' :=
    FireFlyClass.move
      RAND_MAX r1 r2 r3 r4 deltaTime
      (fst (FireFlyClass.render camera gTextureYellow gSphereMesh
                                gLowSphereMesh rotation s)) in
  let position' :=
    fun item => if Nat.eqb item fly then FireFlyClass.position s'
                else position item in
  z (FireFlyClass.position s') = z (FireFlyClass.position s)
  /\ insert position' t o = insert position t o
  /\ remove position' t o = remove position t o
  /\ (classified position t <-> classified position' t).
Proof.
  intros Hrot Hid Hpos s' position'.
  assert (Hz : z (FireFlyClass.position s') = z (FireFlyClass.position s)).
  { unfold s', FireFlyClass.render.
    pose proof (drawObject_position (mkvec3 (5 / 100) (5 / 100) (5 / 100))
                                    rotation (FireFlyClass.position s)
                                    (FireFlyClass.transformData s) Hrot) as Hd.
    destruct (drawObject _ rotation _ _) as [model p]. simpl in *.
    rewrite Hd, Hid. destruct (FireFlyClass.position s) as [px py pz].
    unfold MoreFixtures.identityTransform, Mat.identity, Mat.mulVec, Mat.xyz,
      Mat.point.
    cbn [transformTranslation transformRotation transformScale
         Mat.col0 Mat.col1 Mat.col2 Mat.col3 Mat.x4 Mat.y4 Mat.z4 Mat.w4
         Glm.x Glm.y Glm.z].
    ring. }
  assert (Hsame : forall item, z (position' item) = z (position item)).
  { intros item. unfold position'.
    destruct (Nat.eqb item fly) eqn:Heq; [|reflexivity].
    apply Nat.eqb_eq in Heq. subst item. now rewrite Hz, Hpos. }
  split; [exact Hz|].
  split; [now apply insert_same_z|].
  split; [now apply remove_same_z|].
  split; apply classified_same_z; [intros item; symmetry; apply Hsame | exact Hsame].
Qed.

Lemma firefly_frame_keeps_the_partition_witness :
  z (FireFlyClass.position
       (FireFlyClass.move
          1000 100 200 300 400 (1 / 60)
          (fst (FireFlyClass.render Scenario.camera 7 Scenario.highMesh
                                    Scenario.lowMesh MoreFixtures.quarterTurn
                                    MoreFixtures.firefly))))
  = z (FireFlyClass.position MoreFixtures.firefly).
Proof.
  apply (firefly_frame_keeps_the_partition
           (fun _ => FireFlyClass.position MoreFixtures.firefly) 9%nat
           Scenario.camera 7 Scenario.highMesh Scenario.lowMesh
           MoreFixtures.quarterTurn 1000 100 200 300 400 (1 / 60)
           MoreFixtures.firefly Scenario.tree Scenario.objA);
    reflexivity.
Defined.

Lemma mergeSubtrees_concatenates_witness :
  exists m,
    mergeSubtrees (Some (newBSPTree Scenario.objC))
                  (Some (newBSPTree Scenario.objD)) = Some m
    /\ partitionItem m = Scenario.objC
    /\ back m = None.
Proof.
  destruct (mergeSubtrees_concatenates (Some (newBSPTree Scenario.objC))
                                       (Some (newBSPTree Scenario.objD)))
    as (_ & _ & _ & H).
  apply (H (newBSPTree Scenario.objC)). reflexivity.
Defined.

Lemma renderScene_moves_the_visible_fireflies_witness :
  In Scenario.objB
     (getCurrentFrontItems
        Scenario.position
        (mkBSPTree Scenario.root (Some (newBSPTree Scenario.objB))
                   (Some (newBSPTree Scenario.objA)))
        Scenario.camera false)
  /\ Nat.eqb Scenario.objB Scenario.objB = true
  /\ 1 / 60 = 1 / 60.
Proof.
  destruct (renderScene_moves_the_visible_fireflies
              Scenario.position (fun item => Nat.eqb item Scenario.objB)
              [Scenario.root; Scenario.objA; Scenario.objB]
              (mkBSPTree Scenario.root (Some (newBSPTree Scenario.objB))
                         (Some (newBSPTree Scenario.objA)))
              Scenario.camera (1 / 60) false) as [_ H].
  apply (H Scenario.objB (1 / 60)).
  unfold renderScene. cbn [fst]. apply in_or_app. left.
  apply in_flat_map. exists Scenario.objB. split.
  - rewrite <- scenario_tree, scenario_query. simpl. tauto.
  - unfold renderItem. rewrite Nat.eqb_refl. right. now left.
Defined.
